(** * VS-Code-Debug-Bridge sample program: [sample/main.py]

    A shallow embedding of the four functions of [sample/main.py]
    ([fibonacci], [find_primes], [process_users], [main]) and the
    properties of the specification that are settled against them.

    Python integers are unbounded, so they are [Z].  Python lists are
    [list]s, [lst.append(x)] is [lst ++ [x]].  Dictionaries are finite maps
    with string keys.  A raised exception is the left injection of a sum.
    Floats are the binary64 numbers of [SpecFloat].  [main] runs in a monad
    that records the lines printed.  [process_users] has a second model, on
    a store of list and dictionary objects, for the statement of what a call
    leaves untouched. *)

From Stdlib Require Import ZArith Znumtheory Lia.
From Stdlib Require Import Floats.SpecFloat.
From Stdlib Require Import DecimalString.
From stdpp Require Import gmap strings list sorting.

Local Open Scope Z_scope.

(** ** Python preliminaries *)

(** The exceptions the program can raise.  [SystemError] is not raised by
    the program itself: the store model answers it on a reference that
    points outside the store. *)
Inductive exn : Type :=
  | KeyError (key : string)
  | TypeError
  | ValueError
  | OverflowError
  | SystemError.

(** [res A]: either an exception escaped, or a value of type [A] came back.
    Sequencing stops at the first exception. *)
Abbreviation res := (sum exn).

Definition raise {A} (e : exn) : res A := inl e.

#[global] Instance res_ret : MRet res := λ A x, inr x.
#[global] Instance res_bind : MBind res := λ A B k m,
  match m with
  | inl e => inl e
  | inr x => k x
  end.

(** [for x in l: st = body(st, x)], the loop state [st] threaded through the
    turns, in any of the monads below; an exception raised by a turn ends
    the loop and escapes. *)
Fixpoint for_in {M} `{!MBind M, !MRet M} {S A}
    (l : list A) (body : S → A → M S) (st : S) : M S :=
  match l with
  | [] => mret st
  | x :: l' => st' ← body st x; for_in l' body st'
  end.

(** [range(start, stop)]: the integers [start], [start+1], ... below [stop];
    empty when [stop <= start]. *)
Definition range (start stop : Z) : list Z :=
  (λ i, start + Z.of_nat i) <$> seq 0 (Z.to_nat (stop - start)).

(** [sum(l)] on a list of integers. *)
Definition sum (l : list Z) : Z := foldl Z.add 0 l.

(** ** [fibonacci] *)

(** One turn of the loop body on the loop state [(sequence, a, b)]:
    [sequence.append(a); a, b = b, a + b]. *)
Definition fibonacci_body (st : list Z * Z * Z) (i : Z) : list Z * Z * Z :=
  let '(sequence, a, b) := st in
  (sequence ++ [a], b, a + b).

Definition fibonacci (n : Z) : list Z :=
  let '(sequence, _, _) := foldl fibonacci_body ([], 0, 1) (range 0 n) in
  sequence.


(** ** [find_primes] *)

(** Python floats are IEEE 754 binary64 numbers. *)
Definition prec : Z := 53.
Definition emax : Z := 1024.

(** The conversion of an [int] to a [float] that [num ** 0.5] performs on its
    left operand: round to nearest, ties to even; an integer that rounds
    beyond the largest float raises [OverflowError]. *)
Definition float_of_int (n : Z) : res spec_float :=
  match binary_normalize prec emax n 0 false with
  | S754_infinity _ => raise OverflowError
  | x => mret x
  end.

(** [x ** 0.5] on a non-negative float.  Python hands the operation to the
    [pow] of the platform, which need not round correctly; the model takes
    the correctly rounded IEEE 754 square root, which can differ from it in
    the last bit (so at 4506021509132835).  At the candidates of [main], 2
    to 30, the two agree.  The general statements below use of this value
    only that the root of a finite non-negative float is again one, or take
    what they need of it as a hypothesis. *)
Definition pow_half (x : spec_float) : spec_float := SFsqrt prec emax x.

(** [int(x)] on a float: truncation towards zero. *)
Definition int_of_float (x : spec_float) : res Z :=
  match x with
  | S754_zero _ => mret 0
  | S754_finite s m e => mret (cond_Zopp s (Z.shiftl (Z.pos m) e))
  | S754_infinity _ => raise OverflowError
  | S754_nan => raise ValueError
  end.

(** [int(num ** 0.5)]. *)
Definition int_sqrt (num : Z) : res Z :=
  x ← float_of_int num;
  int_of_float (pow_half x).

(** The inner loop over the candidate divisors, with its [break]:
    [for i in divisors: if num % i == 0: is_prime = False; break]. *)
Fixpoint trial_division (num : Z) (divisors : list Z) (is_prime : bool)
    : bool :=
  match divisors with
  | [] => is_prime
  | i :: rest =>
      if num mod i =? 0 then false else trial_division num rest is_prime
  end.

(** One turn of the outer loop on the loop state [primes]. *)
Definition find_primes_body (primes : list Z) (num : Z) : res (list Z) :=
  r ← int_sqrt num;
  let is_prime := trial_division num (range 2 (r + 1)) true in
  mret (if is_prime then primes ++ [num] else primes).

Definition find_primes (limit : Z) : res (list Z) :=
  for_in (range 2 (limit + 1)) find_primes_body [].

(** ** [process_users] *)

(** The Python values that occur in user dictionaries. *)
Inductive value : Type :=
  | VInt (z : Z)
  | VStr (s : string).

#[global] Instance value_eq_dec : EqDecision value.
Proof. solve_decision. Defined.

Abbreviation dict := (gmap string value).

(** [d[key]]: raises [KeyError] on a missing key. *)
Definition getitem (d : dict) (key : string) : res value :=
  match d !! key with
  | Some v => mret v
  | None => raise (KeyError key)
  end.

(** [v >= k] for an integer literal [k]: a string does not compare with an
    integer. *)
Definition ge_int (v : value) (k : Z) : res bool :=
  match v with
  | VInt z => mret (k <=? z)
  | VStr _ => raise TypeError
  end.

(** ["senior" if age >= 60 else "adult" if age >= 18 else "minor"]. *)
Definition status_of (age : value) : res string :=
  c ← ge_int age 60;
  if c : bool then mret "senior"%string
  else c' ← ge_int age 18;
       if c' : bool then mret "adult"%string else mret "minor"%string.

(** One turn of the loop on the loop state [results]. *)
Definition process_users_body (results : list dict) (user : dict)
    : res (list dict) :=
  name ← getitem user "name";
  age ← getitem user "age";
  status ← status_of age;
  mret (results
        ++ [({[ "name" := name; "age" := age; "status" := VStr status ]}
             : dict)]).

Definition process_users (users : list dict) : res (list dict) :=
  for_in users process_users_body [].

(** ** [main] *)

(** [str(z)] for an integer: its decimal digits, with a leading minus sign
    when negative. *)
Definition str_int (z : Z) : string := NilZero.string_of_int (Z.to_int z).

(** [str(l)] for a list of integers, as an f-string field prints it. *)
Definition str_list (l : list Z) : string :=
  "[" +:+ String.concat ", " (str_int <$> l) +:+ "]".

(** [str(v)] for a dictionary value, as an f-string field prints it. *)
Definition str_value (v : value) : string :=
  match v with
  | VInt z => str_int z
  | VStr s => s
  end.

(** A program that prints: it extends the lines written to standard output
    so far, and returns or raises.  The lines already written stay written
    when an exception escapes. *)
Definition prog (A : Type) : Type := list string → res A * list string.

#[global] Instance prog_ret : MRet prog := λ A x out, (inr x, out).
#[global] Instance prog_bind : MBind prog := λ A B k m out,
  match m out with
  | (inl e, out') => (inl e, out')
  | (inr x, out') => k x out'
  end.

Definition print (line : string) : prog unit := λ out, (inr tt, out ++ [line]).

Definition lift {A} (m : res A) : prog A := λ out, (m, out).

(** The literal list of user records of [main]. *)
Definition users : list dict :=
  [ {[ "name" := VStr "Alice"; "age" := VInt 30 ]};
    {[ "name" := VStr "Bob"; "age" := VInt 17 ]};
    {[ "name" := VStr "Charlie"; "age" := VInt 65 ]} ].

Definition main : prog unit :=
  let fib := fibonacci 10 in
  print ("Fibonacci(10): " +:+ str_list fib);;
  primes ← lift (find_primes 30);
  print ("Primes up to 30: " +:+ str_list primes);;
  processed ← lift (process_users users);
  for_in processed (λ _ u,
    name ← lift (getitem u "name");
    status ← lift (getitem u "status");
    print ("  " +:+ str_value name +:+ ": " +:+ str_value status)) tt;;
  let total := sum fib + sum primes in
  print ("Total: " +:+ str_int total).

(** The line that [main] prints for a classified record. *)
Definition user_line (u : dict) (line : string) : Prop :=
  ∃ name status,
    u !! "name" = Some (VStr name) ∧ u !! "status" = Some (VStr status)
    ∧ line = "  " +:+ name +:+ ": " +:+ status.

(** ** [process_users] on a store

    The lists and dictionaries of Python are mutable objects reached through
    references.  To state what a call leaves untouched, [process_users] is
    modelled a second time, on a store of such objects: the argument [users]
    is a reference to a list of references to dictionaries, and the result a
    reference to a new list of references to new dictionaries. *)
Module Store.

Definition loc : Type := positive.

Record store : Type := Build_store {
  dicts : gmap loc dict;        (* the dictionary objects *)
  lists : gmap loc (list loc)   (* the list objects, of dictionaries *)
}.

(** A computation on the store that returns or raises. *)
Definition heapM (A : Type) : Type := store → res A * store.

#[global] Instance heapM_ret : MRet heapM := λ A x σ, (inr x, σ).
#[global] Instance heapM_bind : MBind heapM := λ A B k m σ,
  match m σ with
  | (inl e, σ') => (inl e, σ')
  | (inr x, σ') => k x σ'
  end.

Definition lift {A} (m : res A) : heapM A := λ σ, (m, σ).

(** [[]]: a new, empty list object. *)
Definition new_list : heapM loc := λ σ,
  let l := fresh (dom (lists σ)) in
  (inr l, Build_store (dicts σ) (<[l := []]> (lists σ))).

(** [{...}]: a new dictionary object with the given content. *)
Definition new_dict (d : dict) : heapM loc := λ σ,
  let l := fresh (dom (dicts σ)) in
  (inr l, Build_store (<[l := d]> (dicts σ)) (lists σ)).

(** The items of a list object, as [for ... in lst] reads them.  A
    reference outside the store does not occur in a Python program; the
    model answers [SystemError] there. *)
Definition items (lst : loc) : heapM (list loc) := λ σ,
  match lists σ !! lst with
  | Some xs => (inr xs, σ)
  | None => (inl SystemError, σ)
  end.

(** [d[key]] on a dictionary object. *)
Definition subscript (d : loc) (key : string) : heapM value := λ σ,
  match dicts σ !! d with
  | Some m => (getitem m key, σ)
  | None => (inl SystemError, σ)
  end.

(** [lst.append(x)]: the list object is updated in place. *)
Definition append (lst : loc) (x : loc) : heapM unit := λ σ,
  match lists σ !! lst with
  | Some xs =>
      (inr tt, Build_store (dicts σ) (<[lst := xs ++ [x]]> (lists σ)))
  | None => (inl SystemError, σ)
  end.

(** One turn of the loop of [process_users]. *)
Definition process_users_body (results : loc) (_ : unit) (user : loc)
    : heapM unit :=
  name ← subscript user "name";
  age ← subscript user "age";
  status ← lift (status_of age);
  r ← new_dict {[ "name" := name; "age" := age; "status" := VStr status ]};
  append results r.

Definition process_users (users : loc) : heapM loc :=
  results ← new_list;
  us ← items users;
  for_in us (process_users_body results) tt;;
  mret results.

End Store.

(** ** Vocabulary of the statements *)

(** A user record carries both required fields. *)
Definition has_fields (user : dict) : Prop :=
  is_Some (user !! "name") ∧ is_Some (user !! "age").

(** The [age] field, when present, holds an integer (the data model's user
    record: name a text, age an integer). *)
Definition age_is_int (user : dict) : Prop :=
  ∀ v, user !! "age" = Some v → ∃ z, v = VInt z.

(** [r] is the classified record that one turn of [process_users] builds
    from [user]. *)
Definition classifies (user r : dict) : Prop :=
  ∃ name age status,
    user !! "name" = Some name ∧ user !! "age" = Some age ∧
    status_of age = inr status ∧
    r = {[ "name" := name; "age" := age; "status" := VStr status ]}.

(** Primality ([Z.prime]: greater than 1, no divisor strictly between 1 and
    itself) is decidable. *)
#[global] Instance prime_decision (p : Z) : Decision (Z.prime p).
Proof.
  destruct (prime_dec p) as [H|H]; [left|right].
  - by apply prime_alt.
  - intros Hp. by apply H, prime_alt.
Defined.

(** The primes [p] with [2 <= p <= limit], in increasing order. *)
Definition primes_upto (limit : Z) : list Z :=
  filter Z.prime (range 2 (limit + 1)).

(** The least integer whose conversion to a float overflows: halfway between
    the largest float, [2^1024 - 2^971], and [2^1024]. *)
Definition float_overflow : Z := 2 ^ 1024 - 2 ^ 970.

(** A float that is zero, positive or [+inf]: neither a NaN nor negative. *)
Definition nonneg_float (x : spec_float) : Prop :=
  match x with
  | S754_zero _ | S754_infinity false | S754_finite false _ _ => True
  | S754_nan | S754_infinity true | S754_finite true _ _ => False
  end.

(** A store with one list, of one record that has a field more than the two
    required ones. *)
Definition sample_store : Store.store :=
  Store.Build_store
    {[ 1%positive := {[ "name" := VStr "Ann"; "age" := VInt 41;
                        "email" := VStr "ann@example.org" ]} ]}
    {[ 1%positive := [1%positive] ]}.

(** The Fibonacci numbers as a pair recursion, used as the reference for the
    loop invariant. *)
Fixpoint fib_pair (k : nat) : Z * Z :=
  match k with
  | O => (0, 1)
  | S k' => let '(a, b) := fib_pair k' in (b, a + b)
  end.

Definition fib (k : nat) : Z := fst (fib_pair k).


(** ** Vocabulary of the further properties *)

(** The candidate [num] passes the inner loop of [find_primes]: no divisor
    from 2 to [int(num ** 0.5)] divides it. *)
Definition passes (num : Z) : Prop :=
  ∃ r, int_sqrt num = inr r ∧ ∀ i, 2 ≤ i ≤ r → num mod i ≠ 0.

(** Two records agree on the fields that [process_users] reads. *)
Definition same_fields (u v : dict) : Prop :=
  u !! "name" = v !! "name" ∧ u !! "age" = v !! "age".

(** * Properties *)

(** ** Ranges and the Fibonacci numbers *)

Lemma fib_rec k : fib (S (S k)) = fib (S k) + fib k.
Proof.
  unfold fib. simpl. destruct (fib_pair k) as [a b]. simpl. lia.
Qed.

Lemma range_length start stop :
  length (range start stop) = Z.to_nat (stop - start).
Proof. unfold range. by rewrite length_fmap, length_seq. Qed.

Lemma range_empty start stop : stop ≤ start → range start stop = [].
Proof.
  intros H. unfold range. replace (Z.to_nat (stop - start)) with O by lia.
  reflexivity.
Qed.

Lemma elem_of_range start stop x : x ∈ range start stop ↔ start ≤ x < stop.
Proof.
  unfold range. rewrite list_elem_of_fmap. split.
  - intros (i & -> & Hi). apply elem_of_seq in Hi. lia.
  - intros Hx. exists (Z.to_nat (x - start)). split; [lia|].
    apply elem_of_seq. lia.
Qed.

(** Loop invariant: started in the state reached after [k] turns, [m] more
    turns append the next [m] Fibonacci numbers. *)
Lemma fibonacci_loop (l : list Z) (s : list Z) (k : nat) :
  foldl fibonacci_body (s, fib k, fib (S k)) l
  = (s ++ (fib <$> seq k (length l)),
     fib (k + length l), fib (S (k + length l))).
Proof.
  revert s k. induction l as [|i l IH]; intros s k; simpl.
  - rewrite app_nil_r, Nat.add_0_r. reflexivity.
  - replace (fib k + fib (S k)) with (fib (S (S k))) by (rewrite fib_rec; lia).
    rewrite IH, <- app_assoc, !Nat.add_succ_r. reflexivity.
Qed.

Lemma fibonacci_spec n : fibonacci n = fib <$> seq 0 (Z.to_nat n).
Proof.
  unfold fibonacci.
  pose proof (fibonacci_loop (range 0 n) [] 0) as H.
  change (fib 0) with 0 in H. change (fib 1) with 1 in H.
  rewrite H. rewrite range_length. simpl. f_equal. f_equal. lia.
Qed.

(** ** [fibonacci]: the claims *)

(** C1: for every [n >= 0], [fibonacci n] has length exactly [n], starts with
    0 (when [n >= 1]) and then 1 (when [n >= 2]), and every element from the
    third onward is the sum of the two elements just before it. *)
Theorem fibonacci_correct (n : Z) :
  0 ≤ n →
  Z.of_nat (length (fibonacci n)) = n
  ∧ (1 ≤ n → fibonacci n !! 0%nat = Some 0)
  ∧ (2 ≤ n → fibonacci n !! 1%nat = Some 1)
  ∧ (∀ (i : nat) z, fibonacci n !! S (S i) = Some z →
       ∃ x y, fibonacci n !! i = Some x ∧ fibonacci n !! S i = Some y
              ∧ z = x + y).
Proof.
  intros Hn. rewrite fibonacci_spec. repeat split.
  - rewrite length_fmap, length_seq. lia.
  - intros H1. rewrite list_lookup_fmap, lookup_seq_lt by lia. reflexivity.
  - intros H2. rewrite list_lookup_fmap, lookup_seq_lt by lia. reflexivity.
  - intros i z Hz.
    assert (S (S i) < Z.to_nat n)%nat as Hi.
    { apply lookup_lt_Some in Hz. by rewrite length_fmap, length_seq in Hz. }
    rewrite list_lookup_fmap, lookup_seq_lt in Hz by lia. simpl in Hz.
    exists (fib i), (fib (S i)).
    rewrite !list_lookup_fmap, !lookup_seq_lt by lia. simpl.
    repeat split. injection Hz as <-. rewrite fib_rec. lia.
Qed.

Lemma fibonacci_correct_witness :
  Z.of_nat (length (fibonacci 10)) = 10
  ∧ (1 ≤ 10 → fibonacci 10 !! 0%nat = Some 0)
  ∧ (2 ≤ 10 → fibonacci 10 !! 1%nat = Some 1)
  ∧ (∀ (i : nat) z, fibonacci 10 !! S (S i) = Some z →
       ∃ x y, fibonacci 10 !! i = Some x ∧ fibonacci 10 !! S i = Some y
              ∧ z = x + y).
Proof. apply (fibonacci_correct 10). lia. Defined.

(** C8: for every negative [n] the loop of [fibonacci] does not run: the
    result is the empty list, as for [n = 0]. *)
Theorem fibonacci_negative (n : Z) :
  n < 0 → fibonacci n = [] ∧ fibonacci n = fibonacci 0.
Proof.
  intros Hn. unfold fibonacci. rewrite (range_empty 0 n) by lia.
  split; reflexivity.
Qed.

Lemma fibonacci_negative_witness :
  fibonacci (-3) = [] ∧ fibonacci (-3) = fibonacci 0.
Proof. apply (fibonacci_negative (-3)). lia. Defined.

(** ** [process_users]: the claims *)

Ltac unfold_res := unfold mbind, res_bind, mret, res_ret, raise in *.

Lemma status_of_int (age : Z) :
  status_of (VInt age)
  = inr (if 60 <=? age then "senior"%string
         else if 18 <=? age then "adult"%string else "minor"%string).
Proof.
  unfold status_of, ge_int. unfold_res.
  destruct (60 <=? age), (18 <=? age); reflexivity.
Qed.

Lemma status_of_str (s : string) : status_of (VStr s) = inl TypeError.
Proof. reflexivity. Qed.

Lemma process_users_body_ok results user out :
  process_users_body results user = inr out
  ↔ ∃ r, classifies user r ∧ out = results ++ [r].
Proof.
  unfold process_users_body, getitem, classifies. unfold_res. split.
  - destruct (user !! "name") as [name|] eqn:Hname; [|done].
    destruct (user !! "age") as [age|] eqn:Hage; [|done].
    destruct (status_of age) as [e|status] eqn:Hst; [done|].
    intros [= <-]. eexists. split; [|reflexivity].
    exists name, age, status. done.
  - intros (r & (name & age & status & -> & -> & -> & ->) & ->). done.
Qed.

Lemma process_users_body_error results user e :
  age_is_int user →
  process_users_body results user = inl e →
  ¬ has_fields user ∧ (e = KeyError "name" ∨ e = KeyError "age").
Proof.
  unfold process_users_body, getitem, has_fields. unfold_res. intros Hint.
  destruct (user !! "name") as [name|] eqn:Hname.
  - destruct (user !! "age") as [age|] eqn:Hage.
    + destruct (Hint age Hage) as [z ->]. rewrite status_of_int. done.
    + intros [= <-]. split; [|by right]. intros [_ [? [=]]].
  - intros [= <-]. split; [|by left]. intros [[? [=]] _].
Qed.

(** The loop of [process_users] started with [acc] as [results]. *)
Lemma process_users_loop_ok users acc out :
  for_in users process_users_body acc = inr out
  ↔ ∃ rs, Forall2 classifies users rs ∧ out = acc ++ rs.
Proof.
  revert acc. induction users as [|user users IH]; intros acc; simpl.
  - unfold_res. split.
    + intros [= <-]. exists []. by rewrite app_nil_r.
    + intros (rs & Hrs & ->). apply Forall2_nil_inv_l in Hrs as ->.
      by rewrite app_nil_r.
  - split.
    + destruct (process_users_body acc user) as [e|acc'] eqn:Hbody; [done|].
      apply process_users_body_ok in Hbody as (r & Hr & ->).
      unfold mbind, res_bind. rewrite IH. intros (rs & Hrs & ->).
      exists (r :: rs). split; [by constructor|]. by rewrite <- app_assoc.
    + intros (rs & Hrs & ->).
      apply Forall2_cons_inv_l in Hrs as (r & rs' & Hr & Hrs' & ->).
      assert (process_users_body acc user = inr (acc ++ [r])) as ->.
      { apply process_users_body_ok. eauto. }
      unfold mbind, res_bind. apply IH. exists rs'.
      split; [done|]. by rewrite <- app_assoc.
Qed.

Lemma process_users_loop_error users acc :
  Forall age_is_int users →
  ¬ Forall has_fields users →
  ∃ key, (key = "name" ∨ key = "age")%string
         ∧ for_in users process_users_body acc = inl (KeyError key).
Proof.
  revert acc. induction users as [|user users IH]; intros acc Hint Hnot.
  - destruct Hnot. constructor.
  - apply Forall_cons in Hint as [Hu Hint]. simpl.
    destruct (process_users_body acc user) as [e|acc'] eqn:Hbody.
    + destruct (process_users_body_error _ _ _ Hu Hbody) as [_ [-> | ->]];
        eauto.
    + apply process_users_body_ok in Hbody
        as (r & (name & age & status & Hn & Ha & _) & ->).
      unfold mbind, res_bind. apply IH; [done|]. intros Hall. apply Hnot.
      constructor; [|done]. split; eauto.
Qed.

Lemma classifies_has_fields user r : classifies user r → has_fields user.
Proof. intros (name & age & status & Hn & Ha & _). split; eauto. Qed.

Lemma classifies_exists user :
  age_is_int user → has_fields user → ∃ r, classifies user r.
Proof.
  intros Hint [[name Hn] [age Ha]]. destruct (Hint age Ha) as [z ->].
  eexists. exists name, (VInt z). eexists.
  split; [done|]. split; [done|]. split; [apply status_of_int|done].
Qed.

(** What [process_users] returns on a single record that has a name and an
    integer age. *)
Lemma process_users_single (user : dict) name (age : Z) :
  user !! "name" = Some name → user !! "age" = Some (VInt age) →
  ∃ status, status_of (VInt age) = inr status
    ∧ process_users [user]
      = inr [{[ "name" := name; "age" := VInt age; "status" := VStr status ]}].
Proof.
  intros Hn Ha. eexists. split; [apply status_of_int|].
  apply process_users_loop_ok. eexists. split; [|reflexivity].
  constructor; [|constructor]. exists name, (VInt age). eexists.
  split; [done|]. split; [done|]. split; [apply status_of_int|done].
Qed.

(** C3: the status is a total function of the age alone.  For every integer
    [age], also a negative one, the classifier answers "senior" from 60 on,
    "adult" from 18 to 59 and "minor" below 18 (so 18 is adult, 60 senior,
    17 minor, 59 adult), and the record that [process_users] builds from any
    user with that age, whatever its name and other fields, carries exactly
    that status. *)
Theorem classification_by_age (age : Z) :
  (60 ≤ age → status_of (VInt age) = inr "senior"%string)
  ∧ (18 ≤ age < 60 → status_of (VInt age) = inr "adult"%string)
  ∧ (age < 18 → status_of (VInt age) = inr "minor"%string)
  ∧ (age < 0 → status_of (VInt age) = inr "minor"%string)
  ∧ status_of (VInt 18) = inr "adult"%string
  ∧ status_of (VInt 60) = inr "senior"%string
  ∧ status_of (VInt 17) = inr "minor"%string
  ∧ status_of (VInt 59) = inr "adult"%string
  ∧ (∃ status, status_of (VInt age) = inr status
       ∧ ∀ (user : dict) name,
           user !! "name" = Some name → user !! "age" = Some (VInt age) →
           process_users [user]
           = inr [{[ "name" := name; "age" := VInt age;
                     "status" := VStr status ]}]).
Proof.
  rewrite !status_of_int.
  repeat split; try reflexivity; intros.
  - destruct (Z.leb_spec 60 age); [done|lia].
  - destruct (Z.leb_spec 60 age); [lia|].
    destruct (Z.leb_spec 18 age); [done|lia].
  - destruct (Z.leb_spec 60 age); [lia|].
    destruct (Z.leb_spec 18 age); [lia|done].
  - destruct (Z.leb_spec 60 age); [lia|].
    destruct (Z.leb_spec 18 age); [lia|done].
  - eexists. split; [reflexivity|]. intros user name Hn Ha.
    destruct (process_users_single user name age Hn Ha) as (status & Hst & ->).
    rewrite status_of_int in Hst. by injection Hst as <-.
Qed.

Lemma classification_by_age_witness :
  status_of (VInt 65) = inr "senior"%string
  ∧ status_of (VInt 30) = inr "adult"%string
  ∧ status_of (VInt (-4)) = inr "minor"%string.
Proof.
  split; [|split].
  - apply (proj1 (classification_by_age 65)). lia.
  - apply (proj1 (proj2 (classification_by_age 30))). lia.
  - apply (proj1 (proj2 (proj2 (proj2 (classification_by_age (-4)))))). lia.
Defined.

(** C4: on a list of user records (the age, where present, an integer)
    [process_users] succeeds exactly when every record has both [name] and
    [age]; the result then has the length of the input and its i-th record
    holds the i-th input's name and age with its status.  When some record
    lacks a field the call raises [KeyError] on "name" or "age", and the
    caller gets the exception and no list. *)
Theorem process_users_succeeds_iff (users : list dict) :
  Forall age_is_int users →
  ((∃ out, process_users users = inr out) ↔ Forall has_fields users)
  ∧ (∀ out, process_users users = inr out →
       length out = length users
       ∧ ∀ (i : nat) user, users !! i = Some user →
           ∃ r, out !! i = Some r ∧ classifies user r)
  ∧ (¬ Forall has_fields users →
       ∃ key, (key = "name" ∨ key = "age")%string
              ∧ process_users users = inl (KeyError key)).
Proof.
  intros Hint. unfold process_users. split; [split|split].
  - intros [out Hout]. apply process_users_loop_ok in Hout as (rs & Hrs & _).
    clear Hint. induction Hrs; constructor; eauto using classifies_has_fields.
  - intros Hall.
    assert (∃ rs, Forall2 classifies users rs) as [rs Hrs].
    { induction users as [|user users IH]; [by exists []|].
      apply Forall_cons in Hint as [Hu Hint].
      apply Forall_cons in Hall as [Hf Hall].
      destruct (classifies_exists user Hu Hf) as [r Hr].
      destruct (IH Hint Hall) as [rs Hrs]. exists (r :: rs). by constructor. }
    exists rs. apply process_users_loop_ok. eauto.
  - intros out Hout.
    apply process_users_loop_ok in Hout as (rs & Hrs & ->). simpl.
    split; [symmetry; by eapply Forall2_length|].
    intros i user Hi.
    destruct (Forall2_lookup_l _ _ _ _ _ Hrs Hi) as (r & Hr & Hc). eauto.
  - intros Hnot. by apply process_users_loop_error.
Qed.

Lemma process_users_succeeds_iff_witness :
  (∃ out, process_users [{[ "name" := VStr "Bob"; "age" := VInt 17 ]}] = inr out)
  ↔ Forall has_fields [({[ "name" := VStr "Bob"; "age" := VInt 17 ]} : dict)].
Proof.
  apply (process_users_succeeds_iff [{[ "name" := VStr "Bob"; "age" := VInt 17 ]}]).
  constructor; [|constructor].
  intros v Hv. exists 17. vm_compute in Hv. congruence.
Defined.

(** C9: classification is idempotent per record.  For every name and integer
    age, the classified record has a name and an age, and classifying that
    (name, age) pair again, or the classified record itself, gives a record
    with the same status. *)
Theorem classification_idempotent (name : string) (age : Z) :
  ∃ r name' age' status,
    process_users [{[ "name" := VStr name; "age" := VInt age ]}] = inr [r]
    ∧ r !! "name" = Some name' ∧ r !! "age" = Some age'
    ∧ r !! "status" = Some status
    ∧ (∃ r', process_users [{[ "name" := name'; "age" := age' ]}] = inr [r']
             ∧ r' !! "status" = Some status)
    ∧ process_users [r] = inr [r].
Proof.
  destruct (process_users_single
              {[ "name" := VStr name; "age" := VInt age ]} (VStr name) age)
    as (status & Hst & Hrun); [done..|].
  exists {[ "name" := VStr name; "age" := VInt age; "status" := VStr status ]},
    (VStr name), (VInt age), (VStr status).
  split; [done|]. split; [done|]. split; [done|]. split; [done|]. split.
  - eexists. split; [done|done].
  - destruct (process_users_single
                {[ "name" := VStr name; "age" := VInt age;
                   "status" := VStr status ]} (VStr name) age)
      as (status' & Hst' & ->); [done..|]. congruence.
Qed.

(** ** [main]: the claims *)

Lemma fibonacci_10 : fibonacci 10 = [0; 1; 1; 2; 3; 5; 8; 13; 21; 34].
Proof. vm_compute. reflexivity. Qed.

Lemma find_primes_30 :
  find_primes 30 = inr [2; 3; 5; 7; 11; 13; 17; 19; 23; 29].
Proof. vm_compute. reflexivity. Qed.

Lemma process_users_literal :
  process_users users
  = inr [ {[ "name" := VStr "Alice"; "age" := VInt 30;
             "status" := VStr "adult" ]};
          {[ "name" := VStr "Bob"; "age" := VInt 17;
             "status" := VStr "minor" ]};
          {[ "name" := VStr "Charlie"; "age" := VInt 65;
             "status" := VStr "senior" ]} ].
Proof. vm_cast_no_check (eq_refl (process_users users)). Qed.

Lemma main_run :
  main []
  = (inr tt,
     [ "Fibonacci(10): [0, 1, 1, 2, 3, 5, 8, 13, 21, 34]";
       "Primes up to 30: [2, 3, 5, 7, 11, 13, 17, 19, 23, 29]";
       "  Alice: adult"; "  Bob: minor"; "  Charlie: senior";
       "Total: 217" ])%string.
Proof. vm_compute. reflexivity. Qed.

(** C5: with the inputs of [main], [fibonacci 10] is the first ten Fibonacci
    numbers, [find_primes 30] the ten primes up to 30, and the three literal
    records are classified adult, minor and senior, in that order. *)
Theorem end_to_end :
  fibonacci 10 = [0; 1; 1; 2; 3; 5; 8; 13; 21; 34]
  ∧ find_primes 30 = inr [2; 3; 5; 7; 11; 13; 17; 19; 23; 29]
  ∧ process_users users
    = inr [ {[ "name" := VStr "Alice"; "age" := VInt 30;
               "status" := VStr "adult" ]};
            {[ "name" := VStr "Bob"; "age" := VInt 17;
               "status" := VStr "minor" ]};
            {[ "name" := VStr "Charlie"; "age" := VInt 65;
               "status" := VStr "senior" ]} ].
Proof.
  split; [exact fibonacci_10|].
  split; [exact find_primes_30|exact process_users_literal].
Qed.

(** C6 as the specification words it (sums 88 and 159, printed total 247)
    does not hold of the run: the primes up to 30 add up to 129. *)
Lemma totals_as_stated_fail :
  ¬ (∃ primes, find_primes 30 = inr primes
       ∧ sum (fibonacci 10) = 88 ∧ sum primes = 159
       ∧ last (main []).2 = Some "Total: 247"%string).
Proof.
  intros (primes & Hp & _ & Hsum & _).
  rewrite find_primes_30 in Hp. injection Hp as <-.
  vm_compute in Hsum. discriminate.
Qed.

(** C6, amended: in the run of [main] the Fibonacci terms add up to 88, the
    primes found add up to 129, and the total printed is 217. *)
Theorem totals :
  ∃ primes, find_primes 30 = inr primes
    ∧ sum (fibonacci 10) = 88 ∧ sum primes = 129
    ∧ sum (fibonacci 10) + sum primes = 217
    ∧ last (main []).2 = Some "Total: 217"%string.
Proof.
  exists [2; 3; 5; 7; 11; 13; 17; 19; 23; 29].
  split; [exact find_primes_30|]. rewrite fibonacci_10, main_run.
  split; [reflexivity|]. split; [reflexivity|]. split; reflexivity.
Qed.

(** C7: a run of [main] returns normally and writes, in this order: the line
    "Fibonacci(10): " with the ten terms in list notation, the line
    "Primes up to 30: " with the primes in list notation, one line
    "  <name>: <status>" for each classified user in input order, and the
    line "Total: " with the sum of the terms plus the sum of the primes. *)
Theorem main_output :
  ∃ primes processed lines,
    find_primes 30 = inr primes
    ∧ process_users users = inr processed
    ∧ Forall2 user_line processed lines
    ∧ length (fibonacci 10) = 10%nat
    ∧ main []
      = (inr tt,
         [ "Fibonacci(10): " +:+ str_list (fibonacci 10);
           "Primes up to 30: " +:+ str_list primes ]
         ++ lines
         ++ [ "Total: " +:+ str_int (sum (fibonacci 10) + sum primes) ])
    ∧ main []
      = (inr tt,
         [ "Fibonacci(10): [0, 1, 1, 2, 3, 5, 8, 13, 21, 34]";
           "Primes up to 30: [2, 3, 5, 7, 11, 13, 17, 19, 23, 29]";
           "  Alice: adult"; "  Bob: minor"; "  Charlie: senior";
           "Total: 217" ])%string.
Proof.
  exists [2; 3; 5; 7; 11; 13; 17; 19; 23; 29].
  exists [ {[ "name" := VStr "Alice"; "age" := VInt 30;
              "status" := VStr "adult" ]};
           {[ "name" := VStr "Bob"; "age" := VInt 17;
              "status" := VStr "minor" ]};
           {[ "name" := VStr "Charlie"; "age" := VInt 65;
              "status" := VStr "senior" ]} ].
  exists [ "  Alice: adult"; "  Bob: minor"; "  Charlie: senior" ]%string.
  split; [exact find_primes_30|]. split; [exact process_users_literal|].
  split.
  { constructor; [|constructor; [|constructor; [|constructor]]].
    - exists "Alice"%string, "adult"%string.
      split; [|split]; vm_compute; reflexivity.
    - exists "Bob"%string, "minor"%string.
      split; [|split]; vm_compute; reflexivity.
    - exists "Charlie"%string, "senior"%string.
      split; [|split]; vm_compute; reflexivity. }
  rewrite main_run, fibonacci_10.
  split; [reflexivity|]. split; [vm_compute; reflexivity|reflexivity].
Qed.

(** ** [process_users] on a store: the frame *)

Ltac unfold_heap :=
  unfold mbind, Store.heapM_bind, mret, Store.heapM_ret, Store.lift,
    Store.subscript, Store.new_dict, Store.append, Store.items,
    Store.new_list in *.

Lemma classifies_dom user r :
  classifies user r → dom r = ({[ "name"; "age"; "status" ]} : gset string).
Proof.
  intros (name & age & status & _ & _ & _ & ->).
  rewrite !dom_insert_L, dom_singleton_L. set_solver.
Qed.

(** One turn on a record that has both fields: a new dictionary is added to
    the store and its reference appended to [results]; nothing else moves. *)
Lemma store_body_ok (results user : Store.loc) (σ : Store.store)
    (d : dict) (acc : list Store.loc) :
  Store.dicts σ !! user = Some d → has_fields d → age_is_int d →
  Store.lists σ !! results = Some acc →
  ∃ rd, classifies d rd
    ∧ Store.process_users_body results tt user σ
      = (inr tt,
         Store.Build_store
           (<[fresh (dom (Store.dicts σ)) := rd]> (Store.dicts σ))
           (<[results := acc ++ [fresh (dom (Store.dicts σ))]]>
              (Store.lists σ))).
Proof.
  intros Hd [[name Hn] [age Ha]] Hint Hres.
  destruct (Hint age Ha) as [z ->].
  destruct (status_of (VInt z)) as [e|status] eqn:Hst;
    [by rewrite status_of_int in Hst|].
  exists {[ "name" := name; "age" := VInt z; "status" := VStr status ]}.
  split; [by exists name, (VInt z), status|].
  unfold Store.process_users_body. unfold_heap. unfold getitem.
  rewrite Hd, Hn. simpl. rewrite Hd, Ha. simpl. rewrite Hst. simpl.
  rewrite Hres. reflexivity.
Qed.

(** The loop, started in a store that extends [D] with [acc] in [results]. *)
Lemma store_loop_ok (results : Store.loc) (D : gmap Store.loc dict)
    (us : list Store.loc) :
  Forall (λ l, ∃ d, D !! l = Some d ∧ has_fields d ∧ age_is_int d) us →
  ∀ (σ : Store.store) (acc : list Store.loc),
    D ⊆ Store.dicts σ → Store.lists σ !! results = Some acc →
    ∃ σ' new,
      for_in us (Store.process_users_body results) tt σ = (inr tt, σ')
      ∧ Store.dicts σ ⊆ Store.dicts σ'
      ∧ Store.lists σ' = <[results := acc ++ new]> (Store.lists σ)
      ∧ Forall2 (λ l r, ∃ d rd,
                   D !! l = Some d ∧ Store.dicts σ !! r = None
                   ∧ Store.dicts σ' !! r = Some rd ∧ classifies d rd) us new.
Proof.
  induction 1 as [|user us (d & Hd & Hf & Hint) Hus IH]; intros σ acc HD Hres.
  - exists σ, []. simpl. rewrite app_nil_r, insert_id by done.
    split; [done|]. split; [done|]. split; [done|constructor].
  - simpl.
    destruct (store_body_ok results user σ d acc) as (rd & Hrd & Hrun);
      [by eapply lookup_weaken|done..|].
    set (r := fresh (dom (Store.dicts σ))) in *.
    assert (Store.dicts σ !! r = None) as Hr.
    { apply not_elem_of_dom. apply is_fresh. }
    set (σ1 := Store.Build_store (<[r := rd]> (Store.dicts σ))
                           (<[results := acc ++ [r]]> (Store.lists σ))) in *.
    assert (Store.dicts σ ⊆ Store.dicts σ1) as Hsub by by apply insert_subseteq.
    destruct (IH σ1 (acc ++ [r])) as (σ' & new & Hloop & Hsub' & Hlists & Hnew).
    { by etrans. }
    { simpl. apply lookup_insert_eq. }
    exists σ', (r :: new).
    split. { unfold mbind, Store.heapM_bind. rewrite Hrun. exact Hloop. }
    split. { by etrans. }
    split. { rewrite Hlists. simpl. by rewrite insert_insert_eq, <- app_assoc. }
    constructor.
    + exists d, rd. split; [done|]. split; [done|]. split; [|done].
      eapply lookup_weaken; [|done]. simpl. apply lookup_insert_eq.
    + eapply Forall2_impl; [done|]. simpl.
      intros l r' (d' & rd' & ? & Hnone & ? & ?). exists d', rd'.
      split; [done|]. split; [|done].
      eapply lookup_weaken_None; done.
Qed.

(** One turn of the store model against one turn of the model on values. *)
Lemma store_body_refines (results user : Store.loc) (σ : Store.store)
    (d : dict) (acc : list Store.loc) (racc : list dict) :
  Store.dicts σ !! user = Some d →
  Store.lists σ !! results = Some acc →
  match process_users_body racc d with
  | inl e => Store.process_users_body results tt user σ = (inl e, σ)
  | inr rs =>
      ∃ rd, rs = racc ++ [rd]
        ∧ Store.process_users_body results tt user σ
          = (inr tt,
             Store.Build_store
               (<[fresh (dom (Store.dicts σ)) := rd]> (Store.dicts σ))
               (<[results := acc ++ [fresh (dom (Store.dicts σ))]]>
                  (Store.lists σ)))
  end.
Proof.
  intros Hd Hres. unfold process_users_body, Store.process_users_body.
  unfold_heap. unfold_res. unfold getitem. rewrite Hd.
  destruct (d !! "name") as [name|]; simpl; [|done]. rewrite Hd.
  destruct (d !! "age") as [age|]; simpl; [|done].
  destruct (status_of age) as [e|status]; simpl; [done|].
  rewrite Hres. eauto.
Qed.

(** The two models of [process_users] agree: run on a list object whose
    items point to the dictionaries [ds], the store model raises what the
    model on values raises on [ds], or returns a list object whose items
    point to the records that the model on values returns. *)
Lemma store_loop_refines (results : Store.loc) (D : gmap Store.loc dict)
    (us : list Store.loc) (ds : list dict) :
  Forall2 (λ l d, D !! l = Some d) us ds →
  ∀ (σ : Store.store) (acc : list Store.loc) (racc : list dict),
    D ⊆ Store.dicts σ → Store.lists σ !! results = Some acc →
    Forall2 (λ r rd, Store.dicts σ !! r = Some rd) acc racc →
    ∃ σ', Store.dicts σ ⊆ Store.dicts σ'
      ∧ match for_in ds process_users_body racc with
        | inl e =>
            for_in us (Store.process_users_body results) tt σ = (inl e, σ')
        | inr rs =>
            ∃ out,
              for_in us (Store.process_users_body results) tt σ = (inr tt, σ')
              ∧ Store.lists σ' !! results = Some out
              ∧ Forall2 (λ r rd, Store.dicts σ' !! r = Some rd) out rs
        end.
Proof.
  induction 1 as [|user d us ds Hd Hds IH]; intros σ acc racc HD Hres Hacc.
  - exists σ. split; [done|]. simpl. exists acc. done.
  - pose proof (store_body_refines results user σ d acc racc
                  (lookup_weaken _ _ _ _ Hd HD) Hres) as Hbody.
    simpl. unfold mbind, res_bind, Store.heapM_bind.
    destruct (process_users_body racc d) as [e|rs].
    { exists σ. rewrite Hbody. done. }
    destruct Hbody as (rd & -> & ->).
    set (r := fresh (dom (Store.dicts σ))).
    assert (Store.dicts σ !! r = None) as Hr.
    { apply not_elem_of_dom. apply is_fresh. }
    set (σ1 := Store.Build_store (<[r := rd]> (Store.dicts σ))
                                 (<[results := acc ++ [r]]> (Store.lists σ))).
    assert (Store.dicts σ ⊆ Store.dicts σ1) as Hsub.
    { simpl. by apply insert_subseteq. }
    destruct (IH σ1 (acc ++ [r]) (racc ++ [rd])) as (σ' & Hsub' & Hrun).
    { by etrans. }
    { simpl. apply lookup_insert_eq. }
    { apply Forall2_app.
      - eapply Forall2_impl; [exact Hacc|]. intros l' d' Hl'.
        exact (lookup_weaken _ _ _ _ Hl' Hsub).
      - constructor; [|constructor]. simpl. apply lookup_insert_eq. }
    exists σ'. split; [by etrans|]. exact Hrun.
Qed.

(** X15: run on a list object whose items point to the dictionaries [ds],
    [process_users] raises what it raises on the list of values [ds], or
    returns a list object whose items point to the records it returns on
    [ds]: the outcome depends on the content of the records only, not on
    the objects that hold them. *)
Lemma store_process_users_refines (σ : Store.store) (users : Store.loc)
    (us : list Store.loc) (ds : list dict) :
  Store.lists σ !! users = Some us →
  Forall2 (λ l d, Store.dicts σ !! l = Some d) us ds →
  ∃ σ', match process_users ds with
        | inl e => Store.process_users users σ = (inl e, σ')
        | inr rs =>
            ∃ results out,
              Store.process_users users σ = (inr results, σ')
              ∧ Store.lists σ' !! results = Some out
              ∧ Forall2 (λ r rd, Store.dicts σ' !! r = Some rd) out rs
        end.
Proof.
  intros Husers Hds.
  set (results := fresh (dom (Store.lists σ))).
  assert (Store.lists σ !! results = None) as Hfresh.
  { apply not_elem_of_dom. apply is_fresh. }
  set (σ0 := Store.Build_store (Store.dicts σ)
                               (<[results := []]> (Store.lists σ))).
  destruct (store_loop_refines results (Store.dicts σ) us ds Hds σ0 [] [])
    as (σ' & _ & Hrun).
  { done. }
  { simpl. apply lookup_insert_eq. }
  { constructor. }
  exists σ'. unfold process_users, Store.process_users. unfold_heap.
  fold results. fold σ0.
  assert (Store.lists σ0 !! users = Some us) as ->.
  { simpl. rewrite lookup_insert_ne; [done|]. congruence. }
  destruct (for_in ds process_users_body []) as [e|rs].
  - by rewrite Hrun.
  - destruct Hrun as (out & -> & Hout & Hrs). eauto.
Qed.

Lemma store_process_users_refines_witness :
  ∃ σ',
    match process_users [{[ "name" := VStr "Ann"; "age" := VInt 41;
                            "email" := VStr "ann@example.org" ]}] with
    | inl e => Store.process_users 1%positive sample_store = (inl e, σ')
    | inr rs =>
        ∃ results out,
          Store.process_users 1%positive sample_store = (inr results, σ')
          ∧ Store.lists σ' !! results = Some out
          ∧ Forall2 (λ r rd, Store.dicts σ' !! r = Some rd) out rs
    end.
Proof.
  apply (store_process_users_refines sample_store 1%positive [1%positive]).
  - reflexivity.
  - constructor; [reflexivity|constructor].
Defined.

(** C10: a call of [process_users] on a list of records that all have a name
    and an integer age returns a new list and leaves every list and every
    dictionary that existed before the call as it was, the argument list and
    its records among them.  The i-th record of the result is a new
    dictionary with exactly the fields name, age and status, name and age
    being those of the i-th input record; fields of the input record other
    than these are let through without error and do not appear. *)
Theorem process_users_frame (σ : Store.store) (users : Store.loc)
    (us : list Store.loc) :
  Store.lists σ !! users = Some us →
  Forall (λ l, ∃ d, Store.dicts σ !! l = Some d
                    ∧ has_fields d ∧ age_is_int d) us →
  ∃ results out σ',
    Store.process_users users σ = (inr results, σ')
    ∧ Store.lists σ' !! users = Some us
    ∧ (∀ l d, Store.dicts σ !! l = Some d → Store.dicts σ' !! l = Some d)
    ∧ (∀ l xs, Store.lists σ !! l = Some xs → Store.lists σ' !! l = Some xs)
    ∧ Store.lists σ !! results = None
    ∧ Store.lists σ' !! results = Some out
    ∧ Forall2 (λ l r, ∃ d rd,
                 Store.dicts σ !! l = Some d ∧ Store.dicts σ !! r = None
                 ∧ Store.dicts σ' !! r = Some rd ∧ classifies d rd
                 ∧ dom rd = ({[ "name"; "age"; "status" ]} : gset string))
              us out.
Proof.
  intros Husers Hus.
  set (results := fresh (dom (Store.lists σ))).
  assert (Store.lists σ !! results = None) as Hfresh.
  { apply not_elem_of_dom. apply is_fresh. }
  set (σ0 := Store.Build_store (Store.dicts σ)
                               (<[results := []]> (Store.lists σ))).
  destruct (store_loop_ok results (Store.dicts σ) us Hus σ0 [])
    as (σ' & out & Hloop & Hsub & Hlists & Hout).
  { done. }
  { simpl. apply lookup_insert_eq. }
  simpl in Hlists. rewrite insert_insert_eq in Hlists.
  assert (∀ l xs, Store.lists σ !! l = Some xs
                  → Store.lists σ' !! l = Some xs) as Hframe.
  { intros l xs Hl. rewrite Hlists, lookup_insert_ne; [done|]. congruence. }
  exists results, out, σ'.
  split.
  { unfold Store.process_users. unfold_heap. fold results. fold σ0.
    assert (Store.lists σ0 !! users = Some us) as ->.
    { simpl. rewrite lookup_insert_ne; [done|]. congruence. }
    rewrite Hloop. reflexivity. }
  split; [by apply Hframe|].
  split; [intros l d Hl; by eapply lookup_weaken|].
  split; [done|]. split; [done|].
  split; [rewrite Hlists; apply lookup_insert_eq|].
  eapply Forall2_impl; [done|]. simpl.
  intros l r (d & rd & ? & ? & ? & Hc). exists d, rd.
  eauto 10 using classifies_dom.
Qed.

Lemma process_users_frame_witness :
  ∃ results σ',
    Store.process_users 1%positive sample_store = (inr results, σ')
    ∧ Store.lists σ' !! 1%positive = Some [1%positive]
    ∧ Store.dicts σ' !! 1%positive = Store.dicts sample_store !! 1%positive.
Proof.
  destruct (process_users_frame sample_store 1%positive [1%positive])
    as (results & out & σ' & Hrun & Hlist & Hdicts & _).
  - reflexivity.
  - constructor; [|constructor]. eexists. split; [reflexivity|]. split.
    + split; eexists; reflexivity.
    + intros v Hv. exists 41. vm_compute in Hv. congruence.
  - exists results, σ'. split; [exact Hrun|]. split; [exact Hlist|].
    apply Hdicts. reflexivity.
Defined.

(** ** [find_primes]: trial division *)

Lemma for_in_res_cons {S A} (x : A) (l : list A) (body : S → A → res S) st :
  for_in (x :: l) body st
  = match body st x with
    | inl e => inl e
    | inr st' => for_in l body st'
    end.
Proof. reflexivity. Qed.

Lemma trial_division_true num ds :
  trial_division num ds true = true ↔ Forall (λ i, num mod i ≠ 0) ds.
Proof.
  induction ds as [|i ds IH]; simpl.
  - split; [constructor|done].
  - destruct (Z.eqb_spec (num mod i) 0) as [H0|H0].
    + split; [done|]. intros H. apply Forall_cons in H as [H _]. done.
    + rewrite IH. split; [by constructor|]. by intros [_ H]%Forall_cons.
Qed.

(** Trial division by every [i] from 2 to [r] decides primality as soon as
    [r] reaches the integer square root and stays below the candidate. *)
Lemma trial_division_prime (num r : Z) :
  2 ≤ num → Z.sqrt num ≤ r → r < num →
  trial_division num (range 2 (r + 1)) true = true ↔ Z.prime num.
Proof.
  intros Hnum Hlo Hhi. rewrite trial_division_true, Forall_forall.
  pose proof (Z.sqrt_spec num ltac:(lia)) as Hsqrt.
  pose proof (Z.sqrt_nonneg num) as Hk0.
  split.
  - intros Hall. split; [lia|]. intros n Hn [c Hc].
    assert (∀ i, 2 ≤ i ≤ Z.sqrt num → (i | num) → False) as Hno.
    { intros i Hi Hdiv. apply (Hall i); [apply elem_of_range; lia|].
      apply Z.mod_divide; [lia|done]. }
    assert (0 < c) as Hc0 by nia.
    assert (c ≠ 1) as Hc1 by (intros ->; lia).
    assert (c * 1 < c * n) as Hcn by (apply Z.mul_lt_mono_pos_l; lia).
    destruct (Z.le_gt_cases n (Z.sqrt num)) as [Hle|Hgt].
    + apply (Hno n); [lia|]. by exists c.
    + assert (c ≤ Z.sqrt num) as Hck.
      { destruct (Z.le_gt_cases c (Z.sqrt num)) as [|Hgt']; [done|].
        assert ((Z.sqrt num + 1) * (Z.sqrt num + 1) ≤ c * n)
          by (apply Z.mul_le_mono_nonneg; lia).
        unfold Z.succ in Hsqrt. lia. }
      apply (Hno c); [lia|]. exists n. lia.
  - intros [_ Hp] i Hi%elem_of_range Hmod.
    apply (Hp i); [lia|]. apply Z.mod_divide; [lia|done].
Qed.

(** The outer loop, on candidates for which [int(num ** 0.5)] is adequate. *)
Lemma find_primes_loop (l acc : list Z) :
  Forall (λ num, 2 ≤ num
            ∧ ∃ r, int_sqrt num = inr r ∧ Z.sqrt num ≤ r ∧ r < num) l →
  for_in l find_primes_body acc = inr (acc ++ filter Z.prime l).
Proof.
  intros Hl. revert acc.
  induction Hl as [|num l (Hnum & r & Hr & Hlo & Hhi) _ IH]; intros acc.
  - simpl. by rewrite app_nil_r.
  - rewrite for_in_res_cons. unfold find_primes_body. rewrite Hr.
    unfold mbind, res_bind, mret, res_ret.
    pose proof (trial_division_prime num r Hnum Hlo Hhi) as Hp.
    destruct (trial_division num (range 2 (r + 1)) true); rewrite IH.
    + rewrite filter_cons_True by by apply Hp. by rewrite <- app_assoc.
    + rewrite filter_cons_False; [done|]. intros H. by apply Hp in H.
Qed.

(** The outer loop stops with [OverflowError] at the first candidate whose
    conversion overflows, when no candidate raises anything else. *)
Lemma find_primes_loop_overflow (l acc : list Z) :
  Exists (λ num, int_sqrt num = inl OverflowError) l →
  Forall (λ num, ∀ e, int_sqrt num = inl e → e = OverflowError) l →
  for_in l find_primes_body acc = inl OverflowError.
Proof.
  intros Hex Hall. revert acc.
  induction l as [|num l IH]; intros acc; [by apply Exists_nil in Hex|].
  apply Forall_cons in Hall as [Hnum Hall]. rewrite for_in_res_cons.
  unfold find_primes_body.
  destruct (int_sqrt num) as [e|r] eqn:Hr.
  - by rewrite (Hnum e).
  - unfold mbind, res_bind, mret, res_ret. apply IH; [|done].
    apply Exists_cons in Hex as [Hex|Hex]; [congruence|done].
Qed.

Lemma range_sorted start stop : StronglySorted Z.lt (range start stop).
Proof.
  unfold range. generalize (Z.to_nat (stop - start)) as n.
  intros n. generalize 0%nat as k. induction n as [|n IH]; intros k; simpl.
  - constructor.
  - constructor; [apply IH|]. apply Forall_forall.
    intros x (i & -> & Hi%elem_of_seq)%list_elem_of_fmap. lia.
Qed.

Lemma primes_upto_spec (limit p : Z) :
  p ∈ primes_upto limit ↔ Z.prime p ∧ 2 ≤ p ≤ limit.
Proof.
  unfold primes_upto. rewrite list_elem_of_filter, elem_of_range.
  split; intros [? ?]; split; (done || lia).
Qed.

Lemma primes_upto_sorted (limit : Z) : StronglySorted Z.lt (primes_upto limit).
Proof.
  unfold primes_upto. induction (range_sorted 2 (limit + 1)) as [|x l Hl IH Hx].
  - constructor.
  - rewrite filter_cons. case_decide; [|done]. constructor; [done|].
    apply Forall_forall. intros y [_ Hy]%list_elem_of_filter.
    rewrite Forall_forall in Hx. by apply Hx.
Qed.

(** ** [find_primes]: the float square root *)

(** *** No NaN: [int(num ** 0.5)] raises [OverflowError] or nothing *)

Lemma iter_pos_invariant {A} (P : A → Prop) (f : A → A) :
  (∀ x, P x → P (f x)) → ∀ p x, P x → P (SpecFloat.iter_pos f p x).
Proof.
  intros Hf. induction p as [p IH|p IH|]; intros x Hx; simpl; auto.
Qed.

Lemma shr_1_nonneg mrs : 0 ≤ shr_m mrs → 0 ≤ shr_m (shr_1 mrs).
Proof.
  destruct mrs as [m r s]. simpl.
  destruct m as [|[p|p|]|[p|p|]]; simpl; lia.
Qed.

Lemma shr_fexp_nonneg m e l :
  0 ≤ m → 0 ≤ shr_m (shr_fexp prec emax m e l).1.
Proof.
  intros Hm. unfold shr_fexp, shr.
  assert (0 ≤ shr_m (shr_record_of_loc m l)) as H0.
  { by destruct l as [|[]]. }
  destruct (fexp prec emax (Zdigits2 m + e) - e) as [|p|p]; simpl; try done.
  by apply iter_pos_invariant; [apply shr_1_nonneg|].
Qed.

Lemma round_nearest_even_nonneg m l : 0 ≤ m → 0 ≤ round_nearest_even m l.
Proof.
  intros Hm. destruct l as [|[]]; simpl; try lia. destruct (Z.even m); lia.
Qed.

Lemma binary_round_aux_nonneg mx ex lx :
  0 ≤ mx → nonneg_float (binary_round_aux prec emax false mx ex lx).
Proof.
  intros Hm. unfold binary_round_aux.
  pose proof (shr_fexp_nonneg mx ex lx Hm) as H1.
  destruct (shr_fexp prec emax mx ex lx) as [mrs' e']. simpl in H1.
  pose proof (shr_fexp_nonneg _ e' loc_Exact
    (round_nearest_even_nonneg _ (loc_of_shr_record mrs') H1)) as H2.
  destruct (shr_fexp prec emax _ e' loc_Exact) as [mrs'' e'']. simpl in H2.
  destruct (shr_m mrs'') as [|m|m]; [done| |lia].
  by destruct (e'' <=? emax - prec).
Qed.

Lemma pow_half_nonneg x : nonneg_float x → nonneg_float (pow_half x).
Proof.
  destruct x as [s|[]| |[] m e]; try done.
  intros _. unfold pow_half, SFsqrt.
    destruct (SFsqrt_core_binary prec emax (Z.pos m) e) as [[mz ez] lz] eqn:Hc.
    apply binary_round_aux_nonneg.
    unfold SFsqrt_core_binary in Hc.
    destruct (Z.sqrtrem _) as [q r] eqn:Hq in Hc. injection Hc as <- _ _.
    change q with (q, r).1. rewrite <- Hq, Z.sqrtrem_sqrt. apply Z.sqrt_nonneg.
Qed.

Lemma int_of_float_raises_overflow_only x e :
  nonneg_float x → int_of_float x = inl e → e = OverflowError.
Proof. destruct x as [s|[]| |[] m e0]; simpl; unfold_res; (done || congruence). Qed.

Lemma int_sqrt_raises_overflow_only (num : Z) (e : exn) :
  0 < num → int_sqrt num = inl e → e = OverflowError.
Proof.
  intros Hnum. unfold int_sqrt, float_of_int.
  destruct num as [|p|p]; try lia. unfold binary_normalize, binary_round.
  destruct (shl_align _ _ _) as [mz ez].
  pose proof (binary_round_aux_nonneg (Z.pos mz) ez loc_Exact ltac:(lia)) as H.
  destruct (binary_round_aux prec emax false (Z.pos mz) ez loc_Exact)
    as [s|s| |s m e0] eqn:Hx; unfold_res; try congruence;
    by apply int_of_float_raises_overflow_only, pow_half_nonneg.
Qed.

Lemma int_sqrt_float_overflow : int_sqrt float_overflow = inl OverflowError.
Proof. vm_compute. reflexivity. Qed.

(** *** Below the overflow threshold, [int(num ** 0.5)] returns *)

(** The number of binary digits of a positive integer. *)
Lemma digits2_pos_bounds (m : positive) :
  2 ^ (Z.pos (digits2_pos m) - 1) ≤ Z.pos m < 2 ^ Z.pos (digits2_pos m).
Proof.
  induction m as [m IH|m IH|]; simpl digits2_pos.
  - rewrite Pos2Z.inj_succ, Z.pow_succ_r by lia.
    replace (Z.succ (Z.pos (digits2_pos m)) - 1)
      with (Z.succ (Z.pos (digits2_pos m) - 1)) by lia.
    rewrite Z.pow_succ_r by lia. lia.
  - rewrite Pos2Z.inj_succ, Z.pow_succ_r by lia.
    replace (Z.succ (Z.pos (digits2_pos m)) - 1)
      with (Z.succ (Z.pos (digits2_pos m) - 1)) by lia.
    rewrite Z.pow_succ_r by lia. lia.
  - simpl. lia.
Qed.

Lemma digits2_pos_unique (m : positive) (d : Z) :
  2 ^ (d - 1) ≤ Z.pos m < 2 ^ d → Z.pos (digits2_pos m) = d.
Proof.
  intros [Hlo Hhi]. pose proof (digits2_pos_bounds m) as [Hlo' Hhi'].
  assert (0 < d) as Hd.
  { destruct (Z.lt_ge_cases 0 d); [done|].
    destruct (Z.eq_dec d 0) as [->|]; [simpl in Hhi; lia|].
    rewrite Z.pow_neg_r in Hhi by lia. lia. }
  destruct (Z.lt_trichotomy (Z.pos (digits2_pos m)) d) as [Hlt|[Heq|Hgt]];
    [|done|].
  - assert (2 ^ Z.pos (digits2_pos m) ≤ 2 ^ (d - 1))
      by (apply Z.pow_le_mono_r; lia).
    lia.
  - assert (2 ^ d ≤ 2 ^ (Z.pos (digits2_pos m) - 1))
      by (apply Z.pow_le_mono_r; lia).
    lia.
Qed.

Lemma iter_xO_pow2 (m p : positive) :
  Z.pos (Pos.iter xO m p) = Z.pos m * 2 ^ Z.pos p.
Proof.
  rewrite <- Z.shiftl_mul_pow2 by lia. unfold Z.shiftl.
  apply (Pos.iter_swap_gen _ _ Z.pos xO (Z.mul 2)). intros a. reflexivity.
Qed.

(** The exponent function of binary64. *)
Lemma fexp_eq (e : Z) : fexp prec emax e = Z.max (e - 53) (-1074).
Proof. reflexivity. Qed.

(** Rounding a 53-bit mantissa: nothing to shift. *)
Lemma shr_fexp_53 (m : positive) (e : Z) (l : location) :
  Z.pos (digits2_pos m) = 53 → -1074 ≤ e →
  shr_fexp prec emax (Z.pos m) e l = (shr_record_of_loc (Z.pos m) l, e).
Proof.
  intros Hd He. unfold shr_fexp. simpl Zdigits2. rewrite Hd, fexp_eq.
  replace (Z.max (53 + e - 53) (-1074) - e) with 0 by lia. reflexivity.
Qed.

Lemma loc_of_shr_record_of_loc m l :
  loc_of_shr_record (shr_record_of_loc m l) = l.
Proof. by destruct l as [|[]]. Qed.

Lemma shr_m_record_of_loc m l : shr_m (shr_record_of_loc m l) = m.
Proof. by destruct l as [|[]]. Qed.

Lemma round_nearest_even_bounds m l :
  m ≤ round_nearest_even m l ≤ m + 1.
Proof. destruct l as [|[]]; simpl; try lia. destruct (Z.even m); lia. Qed.

Lemma binary_round_aux_exact (s : bool) (m : positive) (e : Z) :
  Z.pos (digits2_pos m) = 53 → -1074 ≤ e ≤ 971 →
  binary_round_aux prec emax s (Z.pos m) e loc_Exact = S754_finite s m e.
Proof.
  intros Hd He. unfold binary_round_aux.
  rewrite shr_fexp_53 by (done || lia). simpl.
  rewrite shr_fexp_53 by (done || lia). simpl.
  destruct (Z.leb_spec e (emax - prec)); [done|unfold emax, prec in *; lia].
Qed.

(** The conversion of an integer below [2^53] is exact. *)
Lemma float_of_int_exact (num : Z) :
  0 < num < 2 ^ 53 →
  ∃ m e, float_of_int num = inr (S754_finite false m e)
    ∧ Z.pos (digits2_pos m) = 53 ∧ -52 ≤ e ≤ 0
    ∧ Z.pos m = num * 2 ^ (- e)
    ∧ 2 ^ (e + 52) ≤ num < 2 ^ (e + 53).
Proof.
  intros Hnum. destruct num as [|p|p]; try lia.
  unfold float_of_int, binary_normalize, binary_round.
  pose proof (digits2_pos_bounds p) as Hp.
  set (d := Z.pos (digits2_pos p)) in *.
  assert (1 ≤ d ≤ 53) as Hd.
  { split; [lia|]. destruct (Z.le_gt_cases d 53); [done|].
    assert (2 ^ 53 ≤ 2 ^ (d - 1)) by (apply Z.pow_le_mono_r; lia). lia. }
  rewrite fexp_eq. unfold shl_align.
  replace (Z.max (d + 0 - 53) (-1074) - 0) with (d - 53) by lia.
  destruct (d - 53) as [|k|k] eqn:Hk; try lia.
  - assert (d = 53) as Hd53 by lia.
    rewrite binary_round_aux_exact by (done || lia).
    exists p, 0. rewrite Hd53 in Hp. simpl Z.opp. rewrite Z.pow_0_r.
    split; [done|]. split; [done|]. split; [lia|]. split; [lia|]. exact Hp.
  - replace (Z.max (d + 0 - 53) (-1074)) with (d - 53) by lia.
    assert (Z.pos k = 53 - d) as Hk' by lia.
    assert (Z.pos (digits2_pos (Pos.iter xO p k)) = 53) as Hdig.
    { apply digits2_pos_unique. rewrite iter_xO_pow2, Hk'.
      replace (2 ^ (53 - 1)) with (2 ^ (d - 1) * 2 ^ (53 - d))
        by (rewrite <- Z.pow_add_r by lia; f_equal; lia).
      replace (2 ^ 53) with (2 ^ d * 2 ^ (53 - d))
        by (rewrite <- Z.pow_add_r by lia; f_equal; lia).
      assert (0 < 2 ^ (53 - d)) by (apply Z.pow_pos_nonneg; lia). nia. }
    rewrite binary_round_aux_exact by (done || lia).
    exists (Pos.iter xO p k), (d - 53).
    split; [done|]. split; [done|]. split; [lia|].
    split. { rewrite iter_xO_pow2, Hk'. do 2 f_equal. lia. }
    replace (d - 53 + 52) with (d - 1) by lia.
    replace (d - 53 + 53) with d by lia. exact Hp.
Qed.

(** Rounding a 53-bit mantissa: the result is finite unless the exponent is
    the largest one and the rounding carries into a 54th bit. *)
Lemma binary_round_aux_53_finite (s : bool) (m : positive) (e : Z)
    (l : location) :
  Z.pos (digits2_pos m) = 53 → -1074 ≤ e ≤ 971 →
  (e = 971 → round_nearest_even (Z.pos m) l < 2 ^ 53) →
  ∃ m' e', binary_round_aux prec emax s (Z.pos m) e l = S754_finite s m' e'
    ∧ Z.pos (digits2_pos m') = 53 ∧ e ≤ e' ≤ 971.
Proof.
  intros Hd He Hcarry. unfold binary_round_aux.
  rewrite shr_fexp_53 by (done || lia). rewrite loc_of_shr_record_of_loc.
  rewrite shr_m_record_of_loc.
  pose proof (digits2_pos_bounds m) as Hm. rewrite Hd in Hm.
  pose proof (round_nearest_even_bounds (Z.pos m) l) as Hn.
  destruct (round_nearest_even (Z.pos m) l) as [|n|n]; try lia.
  destruct (Z.eq_dec (Z.pos n) (2 ^ 53)) as [Heq|Hne].
  - assert (n = 9007199254740992%positive) as -> by lia.
    unfold shr_fexp.
    replace (Zdigits2 9007199254740992) with 54 by (vm_compute; reflexivity).
    rewrite fexp_eq.
    replace (Z.max (54 + e - 53) (-1074) - e) with 1 by lia. simpl.
    destruct (Z.leb_spec (e + 1) (emax - prec)); [|unfold emax, prec in *; lia].
    eexists _, _. split; [reflexivity|]. split; [by vm_compute|].
    unfold emax, prec in *. lia.
  - assert (Z.pos (digits2_pos n) = 53) as Hdn
      by (apply digits2_pos_unique; lia).
    rewrite shr_fexp_53 by (done || lia). simpl.
    destruct (Z.leb_spec e (emax - prec)); [|unfold emax, prec in *; lia].
    exists n, e. split; [done|]. split; [done|]. lia.
Qed.

(** The square root of a float with a 53-bit mantissa is such a float. *)
Lemma pow_half_finite (m : positive) (e : Z) :
  Z.pos (digits2_pos m) = 53 → -52 ≤ e ≤ 971 →
  ∃ m' e', pow_half (S754_finite false m e) = S754_finite false m' e'.
Proof.
  intros Hdig He. unfold pow_half, SFsqrt, SFsqrt_core_binary.
  simpl Zdigits2. rewrite Hdig, fexp_eq, !Z.div2_div.
  set (e1 := Z.min (Z.max ((53 + e + 1) / 2 - 53) (-1074)) (e / 2)).
  assert (e1 = (54 + e) / 2 - 53) as He1.
  { unfold e1. replace (53 + e + 1) with (54 + e) by lia.
    Z.div_mod_to_equations. lia. }
  assert (e - 2 * e1 = 52 ∨ e - 2 * e1 = 53) as Hs.
  { rewrite He1. Z.div_mod_to_equations. lia. }
  assert (-52 ≤ e1 ≤ 459) as He1b.
  { rewrite He1. Z.div_mod_to_equations. lia. }
  clearbody e1. set (s := e - 2 * e1) in *.
  assert (Z.shiftl (Z.pos m) s = Z.pos m * 2 ^ s) as Hshift
    by (apply Z.shiftl_mul_pow2; lia).
  assert (match s with
          | 0 => Z.pos m
          | Z.pos _ => Z.shiftl (Z.pos m) s
          | Z.neg _ => 0
          end = Z.pos m * 2 ^ s) as ->.
  { destruct s; lia. }
  pose proof (digits2_pos_bounds m) as Hmb. rewrite Hdig in Hmb.
  assert (2 ^ 52 * 2 ^ 52 ≤ Z.pos m * 2 ^ s < 2 ^ 53 * 2 ^ 53) as Hrange.
  { destruct Hs as [-> | ->]; lia. }
  pose proof (Z.sqrtrem_spec (Z.pos m * 2 ^ s) ltac:(lia)) as Hspec.
  pose proof (Z.sqrtrem_sqrt (Z.pos m * 2 ^ s)) as Hfst.
  destruct (Z.sqrtrem (Z.pos m * 2 ^ s)) as [q r]. simpl in Hfst.
  destruct Hspec as [Hqr Hr].
  pose proof (Z.sqrt_nonneg (Z.pos m * 2 ^ s)) as Hq0. rewrite <- Hfst in Hq0.
  assert (2 ^ 52 ≤ q < 2 ^ 53) as Hqb by nia.
  destruct q as [|qp|qp]; try lia.
  set (l := if r =? 0 then loc_Exact
            else loc_Inexact (if r <=? Z.pos qp then Lt else Gt)).
  destruct (binary_round_aux_53_finite false qp e1 l) as (m2 & e2 & -> & _).
  - apply digits2_pos_unique. lia.
  - lia.
  - lia.
  - eauto.
Qed.

Lemma iter_pos_nat {A} (f : A → A) (p : positive) (x : A) :
  SpecFloat.iter_pos f p x = Nat.iter (Pos.to_nat p) f x.
Proof.
  revert x. induction p as [p IH|p IH|]; intros x; simpl SpecFloat.iter_pos.
  - rewrite !IH, Pos2Nat.inj_xI.
    rewrite <- Nat.iter_succ_r, <- Nat.iter_add. f_equal. lia.
  - rewrite !IH, Pos2Nat.inj_xO, <- Nat.iter_add. f_equal. lia.
  - reflexivity.
Qed.

(** Shifting [p] right by [n] bits leaves its quotient by [2^n] in the
    mantissa; the round bit is set only when the bits shifted out amount to
    half a unit or more. *)
Lemma shr_iter_spec (p : Z) (n : nat) :
  0 ≤ p →
  ∃ rem,
    0 ≤ shr_m (Nat.iter n shr_1 (Build_shr_record p false false))
    ∧ p = shr_m (Nat.iter n shr_1 (Build_shr_record p false false))
          * 2 ^ Z.of_nat n + rem
    ∧ 0 ≤ rem < 2 ^ Z.of_nat n
    ∧ (shr_r (Nat.iter n shr_1 (Build_shr_record p false false)) = true
       → 2 ^ Z.of_nat n ≤ 2 * rem).
Proof.
  intros Hp. induction n as [|n (rem & Hm & Heq & Hrem & Hr)].
  - exists 0. simpl. repeat split; (lia || done).
  - rewrite Nat2Z.inj_succ, Z.pow_succ_r by lia. simpl Nat.iter.
    destruct (Nat.iter n shr_1 _) as [m r s]. simpl in Hm, Heq, Hr.
    destruct m as [|[q|q|]|q]; simpl; try lia.
    + exists rem. repeat split; (lia || done).
    + exists (2 ^ Z.of_nat n + rem). repeat split; lia.
    + exists rem. repeat split; (lia || done).
    + exists (2 ^ Z.of_nat n + rem). repeat split; lia.
Qed.

Lemma round_nearest_even_no_round_bit mrs :
  shr_r mrs = false →
  round_nearest_even (shr_m mrs) (loc_of_shr_record mrs) = shr_m mrs.
Proof. destruct mrs as [m [] []]; simpl; congruence. Qed.

(** Once the first shift has left a 53-bit mantissa, the rest of the
    rounding is the rounding of that mantissa. *)
Lemma binary_round_aux_shifted (s : bool) (mx ex : Z) (lx : location)
    (mrs : shr_record) (m1 : positive) (e1 : Z) :
  shr_fexp prec emax mx ex lx = (mrs, e1) →
  shr_m mrs = Z.pos m1 → Z.pos (digits2_pos m1) = 53 → -1074 ≤ e1 →
  binary_round_aux prec emax s mx ex lx
  = binary_round_aux prec emax s (Z.pos m1) e1 (loc_of_shr_record mrs).
Proof.
  intros Hshr Hm Hd He. unfold binary_round_aux.
  rewrite Hshr, shr_fexp_53 by done.
  by rewrite loc_of_shr_record_of_loc, shr_m_record_of_loc, Hm.
Qed.

(** The conversion of an integer from [2^53] up to the overflow threshold:
    a finite float with a 53-bit mantissa. *)
Lemma float_of_int_large (num : Z) :
  2 ^ 53 ≤ num < float_overflow →
  ∃ m e, float_of_int num = inr (S754_finite false m e)
    ∧ Z.pos (digits2_pos m) = 53 ∧ 1 ≤ e ≤ 971.
Proof.
  intros Hnum. destruct num as [|p|p]; try lia.
  assert (Z.pos p < 2 ^ 1024) as Hp1024.
  { unfold float_overflow in Hnum.
    assert (0 ≤ 2 ^ 970) by (apply Z.pow_nonneg; lia). lia. }
  unfold float_of_int, binary_normalize, binary_round.
  pose proof (digits2_pos_bounds p) as Hp.
  set (d := Z.pos (digits2_pos p)) in *.
  assert (54 ≤ d ≤ 1024) as Hd.
  { split.
    - destruct (Z.le_gt_cases 54 d); [done|].
      assert (2 ^ d ≤ 2 ^ 53) by (apply Z.pow_le_mono_r; lia). lia.
    - destruct (Z.le_gt_cases d 1024); [done|].
      assert (2 ^ 1024 ≤ 2 ^ (d - 1)) by (apply Z.pow_le_mono_r; lia). lia. }
  rewrite fexp_eq. unfold shl_align.
  replace (Z.max (d + 0 - 53) (-1074) - 0) with (d - 53) by lia.
  destruct (d - 53) as [|k|k] eqn:Hk; try lia.
  assert (shr_fexp prec emax (Z.pos p) 0 loc_Exact
          = (Nat.iter (Pos.to_nat k) shr_1
               (Build_shr_record (Z.pos p) false false), Z.pos k)) as Hshr.
  { unfold shr_fexp. simpl Zdigits2. fold d. rewrite fexp_eq.
    replace (Z.max (d + 0 - 53) (-1074) - 0) with (Z.pos k) by lia.
    unfold shr. simpl shr_record_of_loc. by rewrite iter_pos_nat. }
  destruct (shr_iter_spec (Z.pos p) (Pos.to_nat k) ltac:(lia))
    as (rem & Hm0 & Heq & Hrem & Hr).
  set (mrs := Nat.iter (Pos.to_nat k) shr_1
                (Build_shr_record (Z.pos p) false false)) in *.
  rewrite positive_nat_Z in Heq, Hrem, Hr.
  assert (2 ^ (d - 1) = 2 ^ 52 * 2 ^ Z.pos k) as Hlo.
  { rewrite <- Z.pow_add_r by lia. f_equal. lia. }
  assert (2 ^ d = 2 ^ 53 * 2 ^ Z.pos k) as Hhi.
  { rewrite <- Z.pow_add_r by lia. f_equal. lia. }
  assert (0 < 2 ^ Z.pos k) as Hpow by (apply Z.pow_pos_nonneg; lia).
  assert (2 ^ 52 ≤ shr_m mrs < 2 ^ 53) as Hm1 by nia.
  destruct (shr_m mrs) as [|m1|m1] eqn:Hm1eq; try lia.
  assert (Z.pos (digits2_pos m1) = 53) as Hdig
    by (apply digits2_pos_unique; lia).
  rewrite (binary_round_aux_shifted false _ _ _ mrs m1 (Z.pos k) Hshr Hm1eq Hdig)
    by lia.
  destruct (binary_round_aux_53_finite false m1 (Z.pos k) (loc_of_shr_record mrs))
    as (m' & e' & -> & Hdig' & He'); [done|lia| |].
  - intros Hk971.
    pose proof (round_nearest_even_bounds (Z.pos m1) (loc_of_shr_record mrs)).
    destruct (Z.eq_dec (Z.pos m1) (2 ^ 53 - 1)) as [Hmax|]; [|lia].
    destruct (shr_r mrs) eqn:Hrbit.
    + exfalso. specialize (Hr eq_refl). rewrite Hmax, Hk971 in Heq.
      rewrite Hk971 in Hr. unfold float_overflow in Hnum.
      replace (2 ^ 1024) with (2 ^ 53 * 2 ^ 971) in Hnum
        by (rewrite <- Z.pow_add_r by lia; reflexivity).
      replace (2 ^ 971) with (2 * 2 ^ 970) in *
        by (rewrite <- Z.pow_succ_r by lia; reflexivity).
      lia.
    + rewrite <- Hm1eq, round_nearest_even_no_round_bit by done. lia.
  - simpl. exists m', e'. split; [done|]. split; [done|]. lia.
Qed.

Lemma float_of_int_finite (num : Z) :
  0 < num < float_overflow →
  ∃ m e, float_of_int num = inr (S754_finite false m e)
    ∧ Z.pos (digits2_pos m) = 53 ∧ -52 ≤ e ≤ 971.
Proof.
  intros Hnum. destruct (Z.lt_ge_cases num (2 ^ 53)) as [Hsmall|Hlarge].
  - destruct (float_of_int_exact num) as (m & e & Hf & Hd & He & _); [lia|].
    exists m, e. split; [done|]. split; [done|]. lia.
  - destruct (float_of_int_large num) as (m & e & Hf & Hd & He); [lia|].
    exists m, e. split; [done|]. split; [done|]. lia.
Qed.

(** [int(num ** 0.5)] returns for every positive integer below the
    threshold. *)
Lemma int_sqrt_returns (num : Z) :
  0 < num < float_overflow → ∃ r, int_sqrt num = inr r.
Proof.
  intros Hnum.
  destruct (float_of_int_finite num Hnum) as (m & e & Hf & Hd & He).
  destruct (pow_half_finite m e Hd He) as (m' & e' & Hsqrt).
  unfold int_sqrt. rewrite Hf. unfold mbind, res_bind. rewrite Hsqrt.
  simpl. eauto.
Qed.

(** *** [find_primes] from the overflow threshold on *)

Lemma float_overflow_ge_2 : 2 ≤ float_overflow.
Proof. vm_compute. discriminate. Qed.

(** From [float_overflow] on, the loop of [find_primes] reaches a candidate
    that does not convert to a float, and the call raises. *)
Lemma find_primes_overflow (limit : Z) :
  float_overflow ≤ limit → find_primes limit = inl OverflowError.
Proof.
  intros Hlimit. pose proof float_overflow_ge_2 as H2.
  unfold find_primes. apply find_primes_loop_overflow.
  - apply Exists_exists. exists float_overflow.
    split; [apply elem_of_range; lia|apply int_sqrt_float_overflow].
  - apply Forall_forall. intros num Hnum%elem_of_range e.
    apply int_sqrt_raises_overflow_only. lia.
Qed.

(** * Further properties *)

(** ** [fibonacci]: further properties *)

Lemma fib_nonneg (k : nat) : 0 ≤ fib k ∧ 0 ≤ fib (S k).
Proof.
  induction k as [|k [IH1 IH2]]; [by vm_compute|].
  split; [done|]. rewrite fib_rec. lia.
Qed.

Lemma fib_mono (i j : nat) : (i ≤ j)%nat → fib i ≤ fib j.
Proof.
  induction 1 as [|j _ IH]; [done|]. etrans; [exact IH|].
  destruct j as [|j]; [by vm_compute|].
  rewrite fib_rec. pose proof (fib_nonneg j). lia.
Qed.

Lemma sum_app (l1 l2 : list Z) : sum (l1 ++ l2) = sum l1 + sum l2.
Proof.
  unfold sum. rewrite foldl_app. generalize (foldl Z.add 0 l1) as a.
  induction l2 as [|x l2 IH]; intros a; simpl; [lia|].
  rewrite IH, (IH (0 + x)). lia.
Qed.

Lemma sum_fib (k : nat) : sum (fib <$> seq 0 k) = fib (S k) - 1.
Proof.
  induction k as [|k IH]; [reflexivity|].
  rewrite seq_S, fmap_app, sum_app, IH, fib_rec. simpl. unfold sum. simpl. lia.
Qed.

(** X1: the list for a smaller count is a prefix of the list for a larger
    one. *)
Theorem fibonacci_prefix (n m : Z) :
  n ≤ m → fibonacci n `prefix_of` fibonacci m.
Proof.
  intros Hnm. rewrite !fibonacci_spec.
  exists (fib <$> seq (Z.to_nat n) (Z.to_nat m - Z.to_nat n)).
  rewrite <- fmap_app, <- seq_app. do 2 f_equal. lia.
Qed.

Lemma fibonacci_prefix_witness : fibonacci 3 `prefix_of` fibonacci 10.
Proof. apply (fibonacci_prefix 3 10). lia. Defined.

(** X2: for every count, the terms are non-negative and in non-decreasing
    order. *)
Theorem fibonacci_sorted (n : Z) :
  Forall (λ x, 0 ≤ x) (fibonacci n) ∧ StronglySorted Z.le (fibonacci n).
Proof.
  rewrite fibonacci_spec. split.
  - apply Forall_fmap, Forall_forall. intros k _. apply fib_nonneg.
  - generalize (Z.to_nat n) as len. intros len. generalize 0%nat as k.
    induction len as [|len IH]; intros k; simpl; constructor; [apply IH|].
    apply Forall_forall.
    intros x (i & -> & Hi%elem_of_seq)%list_elem_of_fmap. apply fib_mono. lia.
Qed.

(** X3: the terms of [fibonacci n] add up to one less than the term of
    index [n + 1], the last of [fibonacci (n + 2)]. *)
Theorem fibonacci_sum (n : Z) :
  0 ≤ n →
  fibonacci (n + 2) !! Z.to_nat (n + 1) = Some (sum (fibonacci n) + 1).
Proof.
  intros Hn. rewrite !fibonacci_spec, sum_fib.
  rewrite list_lookup_fmap, lookup_seq_lt by lia. simpl.
  f_equal. replace (Z.to_nat (n + 1)) with (S (Z.to_nat n)) by lia. lia.
Qed.

Lemma fibonacci_sum_witness :
  fibonacci (10 + 2) !! Z.to_nat (10 + 1) = Some (sum (fibonacci 10) + 1).
Proof. apply (fibonacci_sum 10). lia. Defined.

(** ** [find_primes]: further properties *)

Lemma for_in_res_app {S A} (l1 l2 : list A) (body : S → A → res S) st :
  for_in (l1 ++ l2) body st
  = match for_in l1 body st with
    | inl e => inl e
    | inr st' => for_in l2 body st'
    end.
Proof.
  revert st. induction l1 as [|x l1 IH]; intros st; [done|].
  rewrite <- app_comm_cons, !for_in_res_cons.
  destruct (body st x); [done|apply IH].
Qed.

Lemma range_app (a b c : Z) : a ≤ b ≤ c → range a c = range a b ++ range b c.
Proof.
  intros Habc. unfold range.
  replace (Z.to_nat (c - a)) with (Z.to_nat (b - a) + Z.to_nat (c - b))%nat
    by lia.
  rewrite seq_app, fmap_app. f_equal. simpl.
  replace (seq (Z.to_nat (b - a)) (Z.to_nat (c - b)))
    with (Nat.add (Z.to_nat (b - a)) <$> seq 0 (Z.to_nat (c - b)))
    by (rewrite fmap_add_seq; f_equal; lia).
  rewrite <- list_fmap_compose.
  apply list_fmap_ext. intros _ i _. simpl. lia.
Qed.

Lemma sublist_StronglySorted {A} (R : relation A) (l1 l2 : list A) :
  l1 `sublist_of` l2 → StronglySorted R l2 → StronglySorted R l1.
Proof.
  induction 1 as [|x l1 l2 Hs IH|x l1 l2 Hs IH]; intros Hsort; [done|..].
  - apply StronglySorted_inv in Hsort as [Hs2 Hall].
    constructor; [auto|]. apply Forall_forall. intros y Hy.
    rewrite Forall_forall in Hall. apply Hall. by eapply elem_of_sublist.
  - apply StronglySorted_inv in Hsort as [Hs2 _]. auto.
Qed.

Lemma find_primes_body_ok (primes out : list Z) (num : Z) :
  find_primes_body primes num = inr out →
  ∃ r, int_sqrt num = inr r
    ∧ ((out = primes ++ [num] ∧ ∀ i, 2 ≤ i ≤ r → num mod i ≠ 0)
       ∨ (out = primes ∧ ∃ i, 2 ≤ i ≤ r ∧ num mod i = 0)).
Proof.
  unfold find_primes_body. destruct (int_sqrt num) as [e|r]; [done|].
  unfold mbind, res_bind, mret, res_ret. intros [= <-]. exists r.
  split; [done|].
  destruct (trial_division num (range 2 (r + 1)) true) eqn:Ht.
  - left. split; [done|]. apply trial_division_true in Ht.
    rewrite Forall_forall in Ht. intros i Hi. apply Ht, elem_of_range. lia.
  - right. split; [done|].
    destruct (decide (Exists (λ i, num mod i = 0) (range 2 (r + 1))))
      as [Hex|Hnex].
    + apply Exists_exists in Hex as (i & Hi%elem_of_range & H0).
      exists i. split; [lia|done].
    + apply not_Exists_Forall in Hnex; [|solve_decision].
      apply trial_division_true in Hnex. congruence.
Qed.

(** The outer loop, whatever the float square root gives: the candidates
    that pass are appended, in order. *)
Lemma find_primes_loop_ok (l acc out : list Z) :
  for_in l find_primes_body acc = inr out →
  ∃ kept, out = acc ++ kept ∧ kept `sublist_of` l
    ∧ ∀ p, p ∈ kept ↔ p ∈ l ∧ passes p.
Proof.
  revert acc. induction l as [|num l IH]; intros acc.
  - simpl. intros [= <-]. exists []. rewrite app_nil_r.
    split; [done|]. split; [done|]. intros p. split; [by intros ?%elem_of_nil|].
    by intros [?%elem_of_nil _].
  - rewrite for_in_res_cons.
    destruct (find_primes_body acc num) as [e|acc'] eqn:Hbody; [done|].
    apply find_primes_body_ok in Hbody as (r & Hr & Hcase).
    intros (kept & -> & Hsub & Hkept)%IH.
    destruct Hcase as [[-> Hno]|[-> (i & Hi & H0)]].
    + exists (num :: kept). rewrite <- app_assoc. split; [done|].
      split; [by constructor|]. intros p. rewrite !elem_of_cons, Hkept.
      split; [intros [->|[? ?]]|intros [[->|?] ?]]; eauto.
      split; [by left|]. by exists r.
    + exists kept. split; [done|]. split; [by constructor|].
      intros p. rewrite elem_of_cons, Hkept.
      split; [intros [? ?]; eauto|intros [[->|?] Hp]; [|done]].
      destruct Hp as (r' & Hr' & Hall). exfalso.
      rewrite Hr in Hr'. injection Hr' as <-. by apply (Hall i).
Qed.

(** The outer loop returns when [int(num ** 0.5)] returns at every
    candidate. *)
Lemma find_primes_loop_returns (l acc : list Z) :
  Forall (λ num, ∃ r, int_sqrt num = inr r) l →
  ∃ out, for_in l find_primes_body acc = inr out.
Proof.
  intros Hl. revert acc. induction Hl as [|num l [r Hr] _ IH]; intros acc.
  - by exists acc.
  - rewrite for_in_res_cons. unfold find_primes_body. rewrite Hr.
    unfold mbind, res_bind, mret, res_ret. apply IH.
Qed.

(** X4: [find_primes] returns a list for every limit below
    [2^1024 - 2^970], the least integer that [num ** 0.5] cannot convert to
    a float, and raises [OverflowError] for every limit from there on. *)
Theorem find_primes_returns_iff (limit : Z) :
  (limit < float_overflow → ∃ primes, find_primes limit = inr primes)
  ∧ (float_overflow ≤ limit → find_primes limit = inl OverflowError).
Proof.
  split; [|apply find_primes_overflow].
  intros Hlimit. apply find_primes_loop_returns, Forall_forall.
  intros num Hnum%elem_of_range. apply int_sqrt_returns. lia.
Qed.

Lemma find_primes_returns_iff_witness :
  (∃ primes, find_primes 1000 = inr primes)
  ∧ find_primes (2 ^ 1025) = inl OverflowError.
Proof.
  split.
  - apply (proj1 (find_primes_returns_iff 1000)). by vm_compute.
  - apply (proj2 (find_primes_returns_iff (2 ^ 1025))).
    intros H. by vm_compute in H.
Defined.

(** X5: whenever [find_primes] returns, for any limit, the list is strictly
    increasing and holds exactly the candidates from 2 to the limit that no
    integer from 2 to [int(num ** 0.5)] divides. *)
Theorem find_primes_returns (limit : Z) (primes : list Z) :
  find_primes limit = inr primes →
  (∀ p, p ∈ primes ↔ 2 ≤ p ≤ limit ∧ passes p)
  ∧ StronglySorted Z.lt primes.
Proof.
  intros (kept & -> & Hsub & Hkept)%find_primes_loop_ok. simpl. split.
  - intros p. rewrite Hkept, elem_of_range. split; intros [? ?]; split; (done || lia).
  - eapply sublist_StronglySorted; [exact Hsub|]. apply range_sorted.
Qed.

Lemma find_primes_returns_witness :
  (∀ p, p ∈ [2; 3; 5; 7; 11; 13; 17; 19; 23; 29]
        ↔ 2 ≤ p ≤ 30 ∧ passes p)
  ∧ StronglySorted Z.lt [2; 3; 5; 7; 11; 13; 17; 19; 23; 29].
Proof. apply (find_primes_returns 30). exact find_primes_30. Defined.

(** X6: when [find_primes] returns for a limit, it returns for every smaller
    limit, with a prefix of that list. *)
Theorem find_primes_prefix (limit limit' : Z) (primes' : list Z) :
  limit ≤ limit' → find_primes limit' = inr primes' →
  ∃ primes, find_primes limit = inr primes ∧ primes `prefix_of` primes'.
Proof.
  intros Hle. unfold find_primes.
  destruct (Z.le_gt_cases 1 limit) as [H1|H1].
  - rewrite (range_app 2 (limit + 1) (limit' + 1)) by lia.
    rewrite for_in_res_app.
    destruct (for_in (range 2 (limit + 1)) find_primes_body []) as [e|ps];
      [done|].
    intros (kept & -> & _)%find_primes_loop_ok. exists ps.
    split; [done|]. by exists kept.
  - intros _. rewrite (range_empty 2 (limit + 1)) by lia. exists [].
    split; [done|]. apply prefix_nil.
Qed.

Lemma find_primes_prefix_witness :
  ∃ primes, find_primes 10 = inr primes
    ∧ primes `prefix_of` [2; 3; 5; 7; 11; 13; 17; 19; 23; 29].
Proof. apply (find_primes_prefix 10 30); [lia|exact find_primes_30]. Defined.

(** X7: trial division up to [int(num ** 0.5)] finds the primes whenever
    that bound is adequate: if at every candidate from 2 to the limit it is
    at least the integer square root and less than the candidate,
    [find_primes] returns the strictly increasing list of exactly the primes
    from 2 to the limit.  Below 2 there is no candidate and the list is
    empty. *)
Theorem find_primes_correct_when_adequate (limit : Z) :
  ((∀ num, 2 ≤ num ≤ limit →
      ∃ r, int_sqrt num = inr r ∧ Z.sqrt num ≤ r ∧ r < num) →
   find_primes limit = inr (primes_upto limit)
   ∧ (∀ p, p ∈ primes_upto limit ↔ Z.prime p ∧ 2 ≤ p ≤ limit)
   ∧ StronglySorted Z.lt (primes_upto limit))
  ∧ (limit < 2 → find_primes limit = inr []).
Proof.
  split.
  - intros Hok. split; [|split].
    + unfold find_primes, primes_upto. rewrite find_primes_loop; [done|].
      apply Forall_forall. intros num Hnum%elem_of_range.
      split; [lia|]. apply Hok. lia.
    + apply primes_upto_spec.
    + apply primes_upto_sorted.
  - intros H2. unfold find_primes. by rewrite range_empty by lia.
Qed.

Lemma find_primes_correct_when_adequate_witness :
  find_primes 30 = inr (primes_upto 30)
  ∧ (∀ p, p ∈ primes_upto 30 ↔ Z.prime p ∧ 2 ≤ p ≤ 30)
  ∧ StronglySorted Z.lt (primes_upto 30).
Proof.
  apply (proj1 (find_primes_correct_when_adequate 30)).
  intros num Hnum.
  assert (Forall (λ num, ∃ r, int_sqrt num = inr r ∧ Z.sqrt num ≤ r ∧ r < num)
            (range 2 31)) as Hall.
  { let l := eval vm_compute in (range 2 31) in change (range 2 31) with l.
    repeat (apply Forall_cons; split;
              [eexists; split;
                 [vm_compute; reflexivity
                 |vm_compute; split; [discriminate|reflexivity]]|]).
    constructor. }
  rewrite Forall_forall in Hall. apply Hall, elem_of_range. lia.
Defined.

(** ** [process_users]: further properties *)

(** What one turn appends does not depend on the results so far. *)
Lemma process_users_body_acc (acc : list dict) (u : dict) :
  process_users_body acc u
  = match process_users_body [] u with
    | inl e => inl e
    | inr r => inr (acc ++ r)
    end.
Proof.
  unfold process_users_body, getitem. unfold_res.
  destruct (u !! "name"); [|done]. destruct (u !! "age"); [|done].
  by destruct (status_of _).
Qed.

Lemma process_users_loop_acc (us : list dict) (acc : list dict) :
  for_in us process_users_body acc
  = match for_in us process_users_body [] with
    | inl e => inl e
    | inr rs => inr (acc ++ rs)
    end.
Proof.
  revert acc. induction us as [|u us IH]; intros acc.
  - simpl. unfold_res. by rewrite app_nil_r.
  - rewrite !for_in_res_cons, (process_users_body_acc acc).
    destruct (process_users_body [] u) as [e|r]; [done|].
    rewrite (IH (acc ++ r)), (IH r).
    destruct (for_in us process_users_body []); [done|].
    by rewrite app_assoc.
Qed.

Lemma process_users_app (us1 us2 : list dict) :
  process_users (us1 ++ us2)
  = match process_users us1 with
    | inl e => inl e
    | inr rs1 =>
        match process_users us2 with
        | inl e => inl e
        | inr rs2 => inr (rs1 ++ rs2)
        end
    end.
Proof.
  unfold process_users. rewrite for_in_res_app.
  destruct (for_in us1 process_users_body []) as [e|rs1]; [done|].
  apply process_users_loop_acc.
Qed.

(** X8: classifying a concatenation is classifying the two parts in turn
    and concatenating the results; an exception of the first part wins. *)
Theorem process_users_concat (us1 us2 : list dict) :
  process_users (us1 ++ us2)
  = (rs1 ← process_users us1; rs2 ← process_users us2; mret (rs1 ++ rs2)).
Proof.
  rewrite process_users_app. unfold_res.
  destruct (process_users us1); [done|]. by destruct (process_users us2).
Qed.

(** X9: after records that classify, a record without [name] raises
    [KeyError] on "name" whether or not it has an age; one with a name and
    no [age] raises [KeyError] on "age"; one with a name and a string as age
    raises [TypeError].  The records after it are not looked at. *)
Theorem process_users_first_error (us rest rs : list dict) (u : dict) :
  process_users us = inr rs →
  (u !! "name" = None →
     process_users (us ++ u :: rest) = inl (KeyError "name"))
  ∧ (is_Some (u !! "name") → u !! "age" = None →
       process_users (us ++ u :: rest) = inl (KeyError "age"))
  ∧ (is_Some (u !! "name") → (∃ s, u !! "age" = Some (VStr s)) →
       process_users (us ++ u :: rest) = inl TypeError).
Proof.
  intros Hus. rewrite process_users_app, Hus.
  unfold process_users. rewrite for_in_res_cons.
  unfold process_users_body, getitem. unfold_res.
  split; [|split].
  - by intros ->.
  - by intros [name ->] ->.
  - by intros [name ->] [s ->].
Qed.

Lemma process_users_first_error_witness :
  process_users ([] ++ {[ "age" := VInt 3 ]} :: users)
  = inl (KeyError "name").
Proof.
  apply (proj1 (process_users_first_error [] users [] {[ "age" := VInt 3 ]}
                  eq_refl)).
  reflexivity.
Defined.

Lemma process_users_body_same_fields (acc : list dict) (u v : dict) :
  same_fields u v → process_users_body acc u = process_users_body acc v.
Proof.
  intros [Hn Ha]. unfold process_users_body, getitem. by rewrite Hn, Ha.
Qed.

(** X10: the outcome depends on the [name] and [age] fields only: lists
    whose records agree on these two fields give the same result or the same
    exception. *)
Theorem process_users_reads_name_age_only (us vs : list dict) :
  Forall2 same_fields us vs → process_users us = process_users vs.
Proof.
  unfold process_users. generalize ([] : list dict) as acc.
  intros acc Hsame. revert acc.
  induction Hsame as [|u v us vs Huv _ IH]; intros acc; [done|].
  rewrite !for_in_res_cons, (process_users_body_same_fields acc u v Huv).
  destruct (process_users_body acc v); [done|apply IH].
Qed.

Lemma process_users_reads_name_age_only_witness :
  process_users [{[ "name" := VStr "Ann"; "age" := VInt 41;
                    "email" := VStr "ann@example.org" ]}]
  = process_users [{[ "name" := VStr "Ann"; "age" := VInt 41 ]}].
Proof.
  apply process_users_reads_name_age_only.
  constructor; [|constructor]. split; reflexivity.
Defined.

Lemma classifies_self (user r : dict) : classifies user r → classifies r r.
Proof.
  intros (name & age & status & _ & _ & Hst & ->).
  by exists name, age, status.
Qed.

(** X11: a result of [process_users] is a fixed point: classifying the
    returned list again returns it unchanged. *)
Theorem process_users_fixed_point (us out : list dict) :
  process_users us = inr out → process_users out = inr out.
Proof.
  unfold process_users. intros (rs & Hrs & ->)%process_users_loop_ok.
  simpl. apply process_users_loop_ok. exists rs. split; [|done].
  clear -Hrs. induction Hrs; constructor; eauto using classifies_self.
Qed.

Lemma process_users_fixed_point_witness :
  ∃ out, process_users users = inr out ∧ process_users out = inr out.
Proof.
  eexists. split; [exact process_users_literal|].
  apply (process_users_fixed_point users). exact process_users_literal.
Defined.

Lemma status_of_values (age : value) (status : string) :
  status_of age = inr status →
  status ∈ ["senior"; "adult"; "minor"]%string.
Proof.
  destruct age as [z|s]; [|done]. rewrite status_of_int.
  destruct (60 <=? z), (18 <=? z); intros [= <-]; set_solver.
Qed.

(** X12: every record returned carries one of the three statuses "senior",
    "adult" and "minor", as a string. *)
Theorem process_users_statuses (us out : list dict) :
  process_users us = inr out →
  Forall (λ r, ∃ status, r !! "status" = Some (VStr status)
                 ∧ status ∈ ["senior"; "adult"; "minor"]%string) out.
Proof.
  unfold process_users. intros (rs & Hrs & ->)%process_users_loop_ok.
  simpl. clear -Hrs. induction Hrs as [|u r us rs Hr _ IH]; constructor; [|done].
  destruct Hr as (name & age & status & _ & _ & Hst & ->).
  exists status. split; [done|]. by eapply status_of_values.
Qed.

Lemma process_users_statuses_witness :
  ∃ out, process_users users = inr out
    ∧ Forall (λ r, ∃ status, r !! "status" = Some (VStr status)
                     ∧ status ∈ ["senior"; "adult"; "minor"]%string) out.
Proof.
  eexists. split; [exact process_users_literal|].
  apply (process_users_statuses users). exact process_users_literal.
Defined.

(** ** [process_users] on a store: further properties *)

Lemma for_in_store_cons (results : Store.loc) (user : Store.loc)
    (us : list Store.loc) (σ : Store.store) :
  for_in (user :: us) (Store.process_users_body results) tt σ
  = match Store.process_users_body results tt user σ with
    | (inl e, σ') => (inl e, σ')
    | (inr _, σ') => for_in us (Store.process_users_body results) tt σ'
    end.
Proof.
  simpl. unfold mbind, Store.heapM_bind.
  by destruct (Store.process_users_body results tt user σ) as [[e|[]] σ'].
Qed.

(** One turn, whatever its outcome, adds at most one new dictionary and
    writes to no list but [results]. *)
Lemma store_body_frame (results user : Store.loc) (σ : Store.store) :
  Store.dicts σ ⊆ Store.dicts (Store.process_users_body results tt user σ).2
  ∧ ∀ l, l ≠ results →
      Store.lists (Store.process_users_body results tt user σ).2 !! l
      = Store.lists σ !! l.
Proof.
  assert (Store.dicts σ !! fresh (dom (Store.dicts σ)) = None) as Hfresh.
  { apply not_elem_of_dom, is_fresh. }
  unfold Store.process_users_body. unfold_heap.
  repeat (case_match; simplify_eq/=); try done;
    (split; [by apply insert_subseteq|]); [|done].
  intros l' Hl'. by rewrite lookup_insert_ne.
Qed.

Lemma store_loop_frame (results : Store.loc) (us : list Store.loc)
    (σ : Store.store) :
  Store.dicts σ
    ⊆ Store.dicts (for_in us (Store.process_users_body results) tt σ).2
  ∧ ∀ l, l ≠ results →
      Store.lists (for_in us (Store.process_users_body results) tt σ).2 !! l
      = Store.lists σ !! l.
Proof.
  revert σ. induction us as [|user us IH]; intros σ; [done|].
  rewrite for_in_store_cons.
  pose proof (store_body_frame results user σ) as [Hd Hl].
  destruct (Store.process_users_body results tt user σ) as [[e|[]] σ1];
    [done|]. simpl in Hd, Hl.
  destruct (IH σ1) as [Hd' Hl']. split; [by etrans|].
  intros l Hne. by rewrite Hl', Hl.
Qed.

(** X13: whatever the input and the outcome, an exception included, a call
    of [process_users] changes no dictionary and no list that existed
    before it. *)
Theorem store_process_users_preserves (σ : Store.store) (users : Store.loc) :
  Store.dicts σ ⊆ Store.dicts (Store.process_users users σ).2
  ∧ Store.lists σ ⊆ Store.lists (Store.process_users users σ).2.
Proof.
  set (results := fresh (dom (Store.lists σ))).
  assert (Store.lists σ !! results = None) as Hfresh.
  { apply not_elem_of_dom, is_fresh. }
  set (σ0 := Store.Build_store (Store.dicts σ)
                               (<[results := []]> (Store.lists σ))).
  assert (Store.lists σ ⊆ Store.lists σ0) as Hσ0.
  { simpl. by apply insert_subseteq. }
  unfold Store.process_users. unfold_heap. fold results. fold σ0.
  destruct (Store.lists σ0 !! users) as [us|]; [|done].
  pose proof (store_loop_frame results us σ0) as [Hd Hl].
  destruct (for_in us (Store.process_users_body results) tt σ0)
    as [[e|[]] σ'] eqn:Hrun; simpl in *.
  - split; [done|]. apply map_subseteq_spec. intros l xs Hlx.
    rewrite Hl by congruence. by eapply lookup_weaken.
  - split; [done|]. apply map_subseteq_spec. intros l xs Hlx.
    rewrite Hl by congruence. by eapply lookup_weaken.
Qed.

(** A turn that returns has added one new dictionary, under a reference that
    was not in use, and appended that reference to [results]. *)
Lemma store_body_returns (results user : Store.loc) (σ σ' : Store.store)
    (acc : list Store.loc) :
  Store.lists σ !! results = Some acc →
  Store.process_users_body results tt user σ = (inr tt, σ') →
  ∃ rd, σ' = Store.Build_store
               (<[fresh (dom (Store.dicts σ)) := rd]> (Store.dicts σ))
               (<[results := acc ++ [fresh (dom (Store.dicts σ))]]>
                  (Store.lists σ)).
Proof.
  intros Hres. unfold Store.process_users_body. unfold_heap.
  repeat (case_match; simplify_eq/=); try done.
  intros [= <-]. eauto.
Qed.

Lemma store_loop_returns (results : Store.loc) (us : list Store.loc) :
  ∀ (σ σ' : Store.store) (acc : list Store.loc),
    Store.lists σ !! results = Some acc →
    for_in us (Store.process_users_body results) tt σ = (inr tt, σ') →
    ∃ new, Store.lists σ' !! results = Some (acc ++ new)
      ∧ length new = length us
      ∧ NoDup new
      ∧ Store.dicts σ ⊆ Store.dicts σ'
      ∧ ∀ r, r ∈ new →
          Store.dicts σ !! r = None ∧ is_Some (Store.dicts σ' !! r).
Proof.
  induction us as [|user us IH]; intros σ σ' acc Hres.
  - simpl. intros [= <-]. exists []. rewrite app_nil_r.
    split; [done|]. split; [done|]. split; [constructor|]. split; [done|].
    by intros r ?%elem_of_nil.
  - rewrite for_in_store_cons.
    destruct (Store.process_users_body results tt user σ)
      as [[e|[]] σ1] eqn:Hbody; [done|].
    destruct (store_body_returns _ _ _ _ _ Hres Hbody) as [rd ->].
    set (r := fresh (dom (Store.dicts σ))).
    assert (Store.dicts σ !! r = None) as Hr.
    { apply not_elem_of_dom, is_fresh. }
    intros Hloop. eapply IH in Hloop as (new & Hout & Hlen & Hnd & Hsub & Hnew);
      [|simpl; apply lookup_insert_eq]. simpl in Hsub, Hnew.
    assert (Store.dicts σ ⊆ <[r := rd]> (Store.dicts σ)) as Hsub0
      by by apply insert_subseteq.
    exists (r :: new). rewrite <- app_assoc in Hout.
    split; [done|]. split; [simpl; by rewrite Hlen|]. split; [|split].
    + constructor; [|done]. intros [Hnone _]%Hnew.
      by rewrite lookup_insert_eq in Hnone.
    + by etrans.
    + intros r' [->|Hr']%elem_of_cons.
      * split; [done|]. exists rd. eapply lookup_weaken; [|done].
        apply lookup_insert_eq.
      * destruct (Hnew r' Hr') as [Hnone Hsome]. split; [|done].
        by eapply lookup_weaken_None.
Qed.

(** X14: the list returned is a new object and its records are new,
    pairwise distinct dictionaries, one for each item of the input list,
    also when the input list holds the same record several times. *)
Theorem store_process_users_fresh (σ σ' : Store.store)
    (users results : Store.loc) (us : list Store.loc) :
  Store.lists σ !! users = Some us →
  Store.process_users users σ = (inr results, σ') →
  Store.lists σ !! results = None
  ∧ ∃ out,
      Store.lists σ' !! results = Some out
      ∧ length out = length us
      ∧ NoDup out
      ∧ ∀ r, r ∈ out →
          Store.dicts σ !! r = None ∧ is_Some (Store.dicts σ' !! r).
Proof.
  intros Husers.
  set (res0 := fresh (dom (Store.lists σ))).
  assert (Store.lists σ !! res0 = None) as Hfresh.
  { apply not_elem_of_dom, is_fresh. }
  set (σ0 := Store.Build_store (Store.dicts σ)
                               (<[res0 := []]> (Store.lists σ))).
  unfold Store.process_users. unfold_heap. fold res0. fold σ0.
  assert (Store.lists σ0 !! users = Some us) as ->.
  { simpl. rewrite lookup_insert_ne; [done|]. congruence. }
  destruct (for_in us (Store.process_users_body res0) tt σ0)
    as [[e|[]] σ1] eqn:Hrun; [done|].
  intros [= <- <-]. split; [done|].
  eapply store_loop_returns in Hrun as (out & Hout & Hlen & Hnd & _ & Hnew);
    [|simpl; apply lookup_insert_eq].
  exists out. eauto.
Qed.

Lemma store_process_users_fresh_witness :
  ∃ results σ' out,
    Store.process_users 1%positive sample_store = (inr results, σ')
    ∧ Store.lists σ' !! results = Some out ∧ NoDup out.
Proof.
  destruct (Store.process_users 1%positive sample_store)
    as [[e|results] σ'] eqn:Hrun; [vm_compute in Hrun; discriminate|].
  destruct (store_process_users_fresh sample_store σ' 1%positive results
              [1%positive]) as (_ & out & Hout & _ & Hnd & _).
  - reflexivity.
  - exact Hrun.
  - exists results, σ', out. done.
Defined.
